(** * saarthiTest: the upload pipeline and its pending-upload queue

    A shallow embedding of [src/utils/storage.ts], [src/utils/uploadService.ts],
    [src/utils/db.ts] and the two [App] components' [handleDeleteCustomer],
    followed by the properties of the specification that concern them.

    Conventions of the embedding.
    - An [async] function is a state transformer over a [World]: the browser's
      [localStorage], the [FileReader] reads still in flight, and a
      chronological log of the observable effects (remote calls, progress
      callbacks, timer waits).
    - Everything the code receives from outside (replies of the object store,
      of the record store, of the transcriber, the clock, the user's answer to
      [confirm]) comes from an [Env]; the [n]-th call on a channel gets the
      [n]-th reply of that channel.
    - JavaScript strings are Rocq strings of bytes; [toLowerCase] acts on the
      ASCII letters.
    - The object store's [list] and [upload] either answer with an error or
      reject, as the code provides for; [getPublicUrl] and [createSignedUrl]
      answer with the object the code destructures. The progress callback
      returns.
    - [localStorage.setItem] and [JSON.parse] are taken not to throw: the
      stored texts are the ones this code wrote.
    - Record fields keep the names of [src/types/index.ts]; where two
      interfaces share a field name, the fields of [Customer] and of
      [ChatSession] carry a prefix. *)

From Stdlib Require Import String Ascii List Arith Lia Bool Sorted.
From stdpp Require Import gmap strings pretty.
From Equations Require Import Equations.

(** ** Data model ([src/types/index.ts]) *)

(** A [Blob]: opaque bytes and a mime type. *)
Record Blob := mkBlob {
  blob_bytes : list Byte.byte;
  blob_type : string;
}.

(** A [Blob]-typed field of an object that may have gone through
    [JSON.stringify]/[JSON.parse]: a [Blob] has no enumerable property of its
    own, so it is written as the empty object and read back as such. *)
Inductive BlobField :=
| LiveBlob (b : Blob)
| EmptyObject.

Record Customer := mkCustomer {
  customer_id : string;
  customer_name : string;
  customer_email : string;
  customer_phone : string;
  customer_createdAt : string;
}.

Inductive SessionStatus := pending | uploaded | failed.

Record ChatSession := mkChatSession {
  id : string;
  customerId : string;
  customerName : string;
  date : string;
  session_audioBlob : option BlobField;
  session_audioUrl : option string;
  session_transcript : string;
  duration : nat;
  status : SessionStatus;
}.

Record PendingUpload := mkPendingUpload {
  sessionId : string;
  audioBlob : BlobField;
  retryCount : nat;
  lastAttempt : string;
}.

(** What [JSON.parse (JSON.stringify x)] gives back. *)
Definition json_blob (f : BlobField) : BlobField := EmptyObject.

Definition json_upload (u : PendingUpload) : PendingUpload :=
  {| sessionId := sessionId u;
     audioBlob := json_blob (audioBlob u);
     retryCount := retryCount u;
     lastAttempt := lastAttempt u |}.

Definition json_session (s : ChatSession) : ChatSession :=
  {| id := id s;
     customerId := customerId s;
     customerName := customerName s;
     date := date s;
     session_audioBlob := json_blob <$> session_audioBlob s;
     session_audioUrl := session_audioUrl s;
     session_transcript := session_transcript s;
     duration := duration s;
     status := status s |}.

(** ** The outside world *)

(** A value caught by [catch (error)]: an object with a string [message]
    (a storage error, an [Error]) or anything else, of which the code takes
    [String(error)]. *)
Inductive JsThrown :=
| ErrorObject (message : string)
| OtherValue (rendered : string).

Inductive ListReply :=
| ListOk
| ListError (message : string)
| ListThrows.

#[global] Instance ListReply_eq_dec : EqDecision ListReply.
Proof. solve_decision. Defined.

Inductive UploadReply :=
| UploadOk
| UploadFails (error : JsThrown).

Inductive SignedReply :=
| SignedOk (signedUrl : string)
| SignedError.

(** The transcriber's answer to the [fetch]: the call throws, the response is
    not [ok], its body is not JSON, or it is JSON whose
    [candidates[0].content.parts], when present, is a list of parts, each with
    a string [text] or without. *)
Inductive GeminiReply :=
| GeminiThrows
| GeminiNotOk (errText : string)
| GeminiBadJson
| GeminiJson (parts : option (list (option string))).

Inductive DbReply :=
| DbOk
| DbError (message : string).

Inductive Channel :=
| ChList | ChUpload | ChSignedUrl | ChGemini | ChDate
| ChConfirm | ChDeleteSessions | ChDeleteCustomer.

(** How many calls each channel has seen. *)
Record Calls := mkCalls {
  n_list : nat; n_upload : nat; n_signedUrl : nat; n_gemini : nat;
  n_date : nat; n_confirm : nat; n_deleteSessions : nat; n_deleteCustomer : nat;
}.

Definition count (cs : Calls) (c : Channel) : nat :=
  match c with
  | ChList => n_list cs
  | ChUpload => n_upload cs
  | ChSignedUrl => n_signedUrl cs
  | ChGemini => n_gemini cs
  | ChDate => n_date cs
  | ChConfirm => n_confirm cs
  | ChDeleteSessions => n_deleteSessions cs
  | ChDeleteCustomer => n_deleteCustomer cs
  end.

Definition incr (c : Channel) (cs : Calls) : Calls :=
  {| n_list := match c with ChList => S (n_list cs) | _ => n_list cs end;
     n_upload := match c with ChUpload => S (n_upload cs) | _ => n_upload cs end;
     n_signedUrl := match c with ChSignedUrl => S (n_signedUrl cs) | _ => n_signedUrl cs end;
     n_gemini := match c with ChGemini => S (n_gemini cs) | _ => n_gemini cs end;
     n_date := match c with ChDate => S (n_date cs) | _ => n_date cs end;
     n_confirm := match c with ChConfirm => S (n_confirm cs) | _ => n_confirm cs end;
     n_deleteSessions := match c with ChDeleteSessions => S (n_deleteSessions cs) | _ => n_deleteSessions cs end;
     n_deleteCustomer := match c with ChDeleteCustomer => S (n_deleteCustomer cs) | _ => n_deleteCustomer cs end |}.

Record Env := mkEnv {
  VITE_SUPABASE_STORAGE_BUCKET : option string;
  VITE_GEMINI_API_KEY : option string;
  storage_list : nat -> ListReply;
  storage_upload : nat -> UploadReply;
  storage_getPublicUrl : string -> string;
  storage_createSignedUrl : nat -> SignedReply;
  gemini_generateContent : nat -> GeminiReply;
  Date_toISOString : nat -> string;
  FileReader_readAsDataURL : Blob -> string;
  fetch_dataURL : string -> Blob;
  window_confirm : nat -> bool;
  sessions_delete_eq : nat -> DbReply;
  customers_delete_eq : nat -> DbReply;
}.

(** Observable effects, in the order they happen. *)
Inductive Event :=
| EvList
| EvUpload (path : string) (file : Blob)
| EvCreateSignedUrl (path : string) (expiresIn : nat)
| EvGemini (mime : string) (data : list Byte.byte)
| EvProgress (progress : nat)
| EvSleep (ms : nat)
| EvStatus (sid : string) (st : string)
| EvConfirm
| EvDeleteSessionsByCustomer (cid : string)
| EvDeleteCustomer (cid : string).

(** The four keys of [localStorage] the application uses, each absent
    ([None]) or holding the parsed form of its JSON text. *)
Record LocalStorage := mkLocalStorage {
  rm_customers : option (list Customer);
  rm_chat_sessions : option (list ChatSession);
  rm_pending_uploads : option (list PendingUpload);
  rm_audio_blobs : option (gmap string string);
}.

Record World := mkWorld {
  localStorage : LocalStorage;
  fileReaders : list (string * Blob);
  calls : Calls;
  trace : list Event;
}.

Definition set_localStorage (f : LocalStorage -> LocalStorage) (w : World) : World :=
  {| localStorage := f (localStorage w);
     fileReaders := fileReaders w;
     calls := calls w;
     trace := trace w |}.

Definition log (e : Event) (w : World) : World :=
  {| localStorage := localStorage w;
     fileReaders := fileReaders w;
     calls := calls w;
     trace := trace w ++ [e] |}.

Definition bump (c : Channel) (w : World) : World :=
  {| localStorage := localStorage w;
     fileReaders := fileReaders w;
     calls := incr c (calls w);
     trace := trace w |}.

(** The events logged after [w0], read in a later world [w]. *)
Definition since (w0 w : World) : list Event :=
  drop (length (trace w0)) (trace w).

(** ** Asynchronous computations *)

Definition Async (A : Type) : Type := World -> A * World.

#[global] Instance Async_ret : MRet Async := fun A x w => (x, w).
#[global] Instance Async_bind : MBind Async :=
  fun A B f m w => let '(x, w') := m w in f x w'.

Definition effect (f : World -> World) : Async unit := fun w => (tt, f w).
Definition ask {A} (f : World -> A) : Async A := fun w => (f w, w).

(** ** [src/utils/storage.ts] *)

Module storageUtils.

Definition getCustomers (w : World) : list Customer :=
  default [] (rm_customers (localStorage w)).

Definition saveCustomers (customers : list Customer) : World -> World :=
  set_localStorage (fun ls =>
    {| rm_customers := Some customers;
       rm_chat_sessions := rm_chat_sessions ls;
       rm_pending_uploads := rm_pending_uploads ls;
       rm_audio_blobs := rm_audio_blobs ls |}).

Definition getSessions (w : World) : list ChatSession :=
  default [] (rm_chat_sessions (localStorage w)).

Definition saveSessions (sessions : list ChatSession) : World -> World :=
  set_localStorage (fun ls =>
    {| rm_customers := rm_customers ls;
       rm_chat_sessions := Some (json_session <$> sessions);
       rm_pending_uploads := rm_pending_uploads ls;
       rm_audio_blobs := rm_audio_blobs ls |}).

Definition getPendingUploads (w : World) : list PendingUpload :=
  default [] (rm_pending_uploads (localStorage w)).

Definition savePendingUploads (uploads : list PendingUpload) : World -> World :=
  set_localStorage (fun ls =>
    {| rm_customers := rm_customers ls;
       rm_chat_sessions := rm_chat_sessions ls;
       rm_pending_uploads := Some (json_upload <$> uploads);
       rm_audio_blobs := rm_audio_blobs ls |}).

Definition getAudioBlobs (w : World) : gmap string string :=
  default ∅ (rm_audio_blobs (localStorage w)).

Definition setAudioBlobs (blobs : gmap string string) : World -> World :=
  set_localStorage (fun ls =>
    {| rm_customers := rm_customers ls;
       rm_chat_sessions := rm_chat_sessions ls;
       rm_pending_uploads := rm_pending_uploads ls;
       rm_audio_blobs := Some blobs |}).

(** [saveAudioBlob] only starts the read; the write to [localStorage]
    happens in [reader.onloadend], a later task. *)
Definition saveAudioBlob (sid : string) (blob : Blob) (w : World) : World :=
  {| localStorage := localStorage w;
     fileReaders := fileReaders w ++ [(sid, blob)];
     calls := calls w;
     trace := trace w |}.

Section WithEnv.
Context (env : Env).

(** The oldest read in flight completes. *)
Definition onloadend (w : World) : World :=
  match fileReaders w with
  | [] => w
  | (sid, blob) :: rest =>
      let base64 := FileReader_readAsDataURL env blob in
      let w1 := {| localStorage := localStorage w;
                   fileReaders := rest;
                   calls := calls w;
                   trace := trace w |} in
      setAudioBlobs (<[sid := base64]> (getAudioBlobs w1)) w1
  end.

Definition getAudioBlob (sid : string) : Async (option Blob) :=
  blobs ← ask getAudioBlobs;
  match blobs !! sid with
  | None => mret None
  | Some base64 =>
      if decide (base64 = EmptyString) then mret None
      else mret (Some (fetch_dataURL env base64))
  end.

(** The object URL the source creates from the blob is never used. *)
Definition addPendingUpload (sid : string) (blob : Blob) : Async unit :=
  uploads ← ask getPendingUploads;
  n ← ask (fun w => count (calls w) ChDate);
  effect (bump ChDate);;
  let uploads := uploads ++ [ {| sessionId := sid;
                                 audioBlob := LiveBlob blob;
                                 retryCount := 0;
                                 lastAttempt := Date_toISOString env n |} ] in
  effect (savePendingUploads uploads);;
  effect (saveAudioBlob sid blob).

End WithEnv.

Definition deleteAudioBlob (sid : string) : Async unit :=
  blobs ← ask getAudioBlobs;
  effect (setAudioBlobs (delete sid blobs)).

Definition removePendingUpload (sid : string) : Async unit :=
  uploads ← ask getPendingUploads;
  let filtered := filter (fun u => sessionId u <> sid) uploads in
  effect (savePendingUploads filtered).

End storageUtils.


(** ** JavaScript string operations used by the upload service *)

Definition toLowerCase_char (c : ascii) : ascii :=
  let n := nat_of_ascii c in
  if (65 <=? n) && (n <=? 90) then ascii_of_nat (n + 32) else c.

Fixpoint toLowerCase (s : string) : string :=
  match s with
  | EmptyString => EmptyString
  | String c rest => String (toLowerCase_char c) (toLowerCase rest)
  end.

(** [hay.includes(needle)] *)
Fixpoint includes (needle hay : string) : bool :=
  String.prefix needle hay ||
  match hay with
  | EmptyString => false
  | String _ rest => includes needle rest
  end.

(** White space removed by [trim]: tab, line feed, vertical tab, form feed,
    carriage return and space. *)
Definition isWhiteSpace (c : ascii) : bool :=
  let n := nat_of_ascii c in
  ((9 <=? n) && (n <=? 13)) || (n =? 32).

Fixpoint trimStart (s : string) : string :=
  match s with
  | EmptyString => EmptyString
  | String c rest => if isWhiteSpace c then trimStart rest else s
  end.

Fixpoint trimEnd (s : string) : string :=
  match s with
  | EmptyString => EmptyString
  | String c rest =>
      match trimEnd rest with
      | EmptyString => if isWhiteSpace c then EmptyString else String c EmptyString
      | rest' => String c rest'
      end
  end.

Definition trim (s : string) : string := trimEnd (trimStart s).

(** [parts.join(sep)] *)
Fixpoint join (sep : string) (parts : list string) : string :=
  match parts with
  | [] => EmptyString
  | [p] => p
  | p :: rest => p +:+ sep +:+ join sep rest
  end.

(** The character [U+0022]. *)
Definition quotation_mark : string := String "034"%char EmptyString.

(** ** [src/utils/supabaseClient.ts] *)

Definition STORAGE_BUCKET (env : Env) : string :=
  match VITE_SUPABASE_STORAGE_BUCKET env with
  | Some (String c rest) => String c rest
  | _ => "recordings"
  end.

(** ** [src/utils/uploadService.ts] *)

Record UploadResult := mkUploadResult {
  success : bool;
  transcript : option string;
  audioUrl : option string;
  error : option string;
}.

Module UploadService.

Definition maxRetries : nat := 3.
Definition retryDelay : nat := 2000.

(** [onProgress?.(v)]: the caller's callback, when there is one, is handed
    [v]. *)
Definition report (onProgress : bool) (v : nat) : Async unit :=
  if onProgress then effect (log (EvProgress v)) else mret tt.

Definition sleep (ms : nat) : Async unit := effect (log (EvSleep ms)).

(** [typeof error?.message === 'string' ? error.message : String(error)] *)
Definition errorMessage (e : JsThrown) : string :=
  match e with
  | ErrorObject message => message
  | OtherValue rendered => rendered
  end.

Definition isBucketNotFound (message : string) : bool :=
  includes "bucket not found" (toLowerCase message).

Section WithEnv.
Context (env : Env).

Definition geminiApiKey : option string := VITE_GEMINI_API_KEY env.

Definition checkServerConnection : Async bool :=
  n ← ask (fun w => count (calls w) ChList);
  effect (bump ChList);;
  effect (log EvList);;
  match storage_list env n with
  | ListOk => mret true
  | ListError _ => mret false
  | ListThrows => mret false
  end.

Definition generateTranscriptWithGemini (blob : Blob) : Async string :=
  match geminiApiKey with
  | None => mret EmptyString
  | Some EmptyString => mret EmptyString
  | Some _ =>
      n ← ask (fun w => count (calls w) ChGemini);
      effect (bump ChGemini);;
      effect (log (EvGemini
                     (if decide (blob_type blob = EmptyString)
                      then "audio/webm" else blob_type blob)
                     (blob_bytes blob)));;
      match gemini_generateContent env n with
      | GeminiThrows => mret EmptyString
      | GeminiNotOk _ => mret EmptyString
      | GeminiBadJson => mret EmptyString
      | GeminiJson parts =>
          mret (trim (join " " (default EmptyString <$> default [] parts)))
      end
  end.

Definition filePathOf (sid : string) : string :=
  "recordings/" +:+ sid +:+ "/recording.webm".

Definition fileOf (blob : Blob) : Blob :=
  {| blob_bytes := blob_bytes blob;
     blob_type := if decide (blob_type blob = EmptyString)
                  then "audio/webm" else blob_type blob |}.

(** The [try] block of [attemptUpload]: [inl error] when it throws. *)
Definition tryUpload (sid : string) (blob : Blob) (onProgress : bool)
  : Async (JsThrown + UploadResult) :=
  let filePath := filePathOf sid in
  let file := fileOf blob in
  report onProgress 10;;
  n ← ask (fun w => count (calls w) ChUpload);
  effect (bump ChUpload);;
  effect (log (EvUpload filePath file));;
  match storage_upload env n with
  | UploadFails uploadError => mret (inl uploadError)
  | UploadOk =>
      report onProgress 60;;
      let publicUrl := storage_getPublicUrl env filePath in
      publicUrl ←
        (if decide (publicUrl = EmptyString) then
           k ← ask (fun w => count (calls w) ChSignedUrl);
           effect (bump ChSignedUrl);;
           effect (log (EvCreateSignedUrl filePath (60 * 60)));;
           match storage_createSignedUrl env k with
           | SignedOk signedUrl => mret signedUrl
           | SignedError => mret publicUrl
           end
         else mret publicUrl);
      text ← generateTranscriptWithGemini blob;
      report onProgress 100;;
      storageUtils.removePendingUpload sid;;
      mret (inr {| success := true;
                   transcript := Some text;
                   audioUrl := Some publicUrl;
                   error := None |})
  end.

Definition bucketNotFoundMessage : string :=
  "Supabase bucket " +:+ quotation_mark +:+ STORAGE_BUCKET env +:+ quotation_mark
  +:+ " not found. Create this bucket in Supabase Storage (Dashboard → Storage → New bucket) and set its public access or adjust policies.".

Definition exhaustedMessage (message : string) : string :=
  "Upload failed after " +:+ pretty maxRetries
  +:+ " attempts. Recording saved locally. " +:+ message.

Equations? attemptUpload (sid : string) (blob : Blob) (retryCount : nat)
  (onProgress : bool) (w : World) : UploadResult * World
  by wf (maxRetries - retryCount) lt :=
attemptUpload sid blob retryCount onProgress w :=
  match tryUpload sid blob onProgress w with
  | (inr result, w1) => (result, w1)
  | (inl error, w1) =>
      let message := errorMessage error in
      if isBucketNotFound message then
        ({| success := false; transcript := None; audioUrl := None;
            error := Some bucketNotFoundMessage |}, w1)
      else
        match lt_dec retryCount maxRetries with
        | left _ =>
            let '(_, w2) := sleep (retryDelay * (retryCount + 1)) w1 in
            attemptUpload sid blob (retryCount + 1) onProgress w2
        | right _ =>
            let '(_, w2) := storageUtils.addPendingUpload env sid blob w1 in
            ({| success := false; transcript := None; audioUrl := None;
                error := Some (exhaustedMessage message) |}, w2)
        end
  end.
Proof. lia. Qed.

Definition uploadAudio (sid : string) (blob : Blob) (onProgress : bool)
  : Async UploadResult :=
  isConnected ← checkServerConnection;
  if negb isConnected then
    storageUtils.addPendingUpload env sid blob;;
    mret {| success := false; transcript := None; audioUrl := None;
            error := Some "Supabase is not reachable. Recording saved for later upload." |}
  else attemptUpload sid blob 0 onProgress.

(** The body of the [for ... of] loop of [retryPendingUploads], over the
    list read before the loop. *)
Fixpoint retryEach (onProgress : bool) (pending : list PendingUpload) : Async unit :=
  match pending with
  | [] => mret tt
  | upload :: rest =>
      (if onProgress then effect (log (EvStatus (sessionId upload) "retrying"))
       else mret tt);;
      found ← storageUtils.getAudioBlob env (sessionId upload);
      match found with
      | Some blob =>
          result ← uploadAudio (sessionId upload) blob false;
          if success result then
            (if onProgress then effect (log (EvStatus (sessionId upload) "success"))
             else mret tt)
          else
            (if onProgress then effect (log (EvStatus (sessionId upload) "failed"))
             else mret tt)
      | None => mret tt
      end;;
      retryEach onProgress rest
  end.

Definition retryPendingUploads (onProgress : bool) : Async unit :=
  pending ← ask storageUtils.getPendingUploads;
  retryEach onProgress pending.

End WithEnv.

End UploadService.


(** ** [src/utils/db.ts] *)

Module db.
Section WithEnv.
Context (env : Env).

(** [inl error] when the function throws the error the record store
    returned. *)
Definition deleteCustomer (cid : string) : Async (JsThrown + unit) :=
  n ← ask (fun w => count (calls w) ChDeleteCustomer);
  effect (bump ChDeleteCustomer);;
  effect (log (EvDeleteCustomer cid));;
  match customers_delete_eq env n with
  | DbOk => mret (inr tt)
  | DbError message => mret (inl (ErrorObject message))
  end.

Definition deleteSessionsByCustomer (cid : string) : Async (JsThrown + unit) :=
  n ← ask (fun w => count (calls w) ChDeleteSessions);
  effect (bump ChDeleteSessions);;
  effect (log (EvDeleteSessionsByCustomer cid));;
  match sessions_delete_eq env n with
  | DbOk => mret (inr tt)
  | DbError message => mret (inl (ErrorObject message))
  end.

End WithEnv.
End db.

(** ** The [App] component: [handleDeleteCustomer] *)

(** The component's state, as the handler's closure sees it. *)
Record AppState := mkAppState {
  customers : list Customer;
  sessions : list ChatSession;
}.

(** [list.forEach(f)] *)
Fixpoint forEach {A} (f : A -> Async unit) (l : list A) : Async unit :=
  match l with
  | [] => mret tt
  | x :: rest => f x;; forEach f rest
  end.

Definition confirm (env : Env) : Async bool :=
  n ← ask (fun w => count (calls w) ChConfirm);
  effect (bump ChConfirm);;
  effect (log EvConfirm);;
  mret (window_confirm env n).

(** The component that signs in through the identity provider (the one
    whose handler carries the comment on the swapped order). *)
Module App.
Section WithEnv.
Context (env : Env).

Definition handleDeleteCustomer (st : AppState) (cid : string) : Async AppState :=
  yes ← confirm env;
  if (yes : bool) then
    let updatedCustomers := filter (fun c => customer_id c <> cid) (customers st) in
    deleted ← db.deleteSessionsByCustomer env cid;
    deleted ← match deleted with
               | inl e => mret (inl e)
               | inr _ => db.deleteCustomer env cid
               end;
    match deleted with
    | inl _ => effect (storageUtils.saveCustomers updatedCustomers)
    | inr _ => mret tt
    end;;
    let updatedSessions := filter (fun s => customerId s <> cid) (sessions st) in
    effect (storageUtils.saveSessions updatedSessions);;
    forEach (fun session : ChatSession =>
               if decide (customerId session = cid)
               then storageUtils.deleteAudioBlob (id session)
               else mret tt) updatedSessions;;
    mret {| customers := updatedCustomers; sessions := updatedSessions |}
  else mret st.

End WithEnv.
End App.

(** The other copy of the component (local sign-in flag), whose handler
    deletes the customer row first. *)
Module AppLocalAuth.
Section WithEnv.
Context (env : Env).

Definition handleDeleteCustomer (st : AppState) (cid : string) : Async AppState :=
  yes ← confirm env;
  if (yes : bool) then
    let updatedCustomers := filter (fun c => customer_id c <> cid) (customers st) in
    deleted ← db.deleteCustomer env cid;
    deleted ← match deleted with
               | inl e => mret (inl e)
               | inr _ => db.deleteSessionsByCustomer env cid
               end;
    match deleted with
    | inl _ => effect (storageUtils.saveCustomers updatedCustomers)
    | inr _ => mret tt
    end;;
    let updatedSessions := filter (fun s => customerId s <> cid) (sessions st) in
    effect (storageUtils.saveSessions updatedSessions);;
    forEach (fun session : ChatSession =>
               if decide (customerId session = cid)
               then storageUtils.deleteAudioBlob (id session)
               else mret tt) updatedSessions;;
    mret {| customers := updatedCustomers; sessions := updatedSessions |}
  else mret st.

End WithEnv.
End AppLocalAuth.

(** ** Concrete inputs *)

Definition blob1 : Blob := {| blob_bytes := [Byte.x52; Byte.x49]; blob_type := "audio/webm" |}.

Definition emptyStorage : LocalStorage :=
  {| rm_customers := None; rm_chat_sessions := None;
     rm_pending_uploads := None; rm_audio_blobs := None |}.

Definition freshWorld : World :=
  {| localStorage := emptyStorage; fileReaders := [];
     calls := mkCalls 0 0 0 0 0 0 0 0; trace := [] |}.

Definition customer1 : Customer :=
  {| customer_id := "customer_1"; customer_name := "Asha"; customer_email := "asha@example.org";
     customer_phone := "555-0100"; customer_createdAt := "2025-01-01T00:00:00.000Z" |}.

Definition session1001 : ChatSession :=
  {| id := "customer_1_1001"; customerId := "customer_1"; customerName := "Asha";
     date := "2025-01-02T00:00:00.000Z"; session_audioBlob := Some EmptyObject;
     session_audioUrl := None; session_transcript := "Pending upload...";
     duration := 12; status := pending |}.

Definition session1002 : ChatSession :=
  {| id := "customer_1_1002"; customerId := "customer_1"; customerName := "Asha";
     date := "2025-01-03T00:00:00.000Z"; session_audioBlob := Some EmptyObject;
     session_audioUrl := None; session_transcript := "Pending upload...";
     duration := 7; status := pending |}.

Definition appWithTwoSessions : AppState :=
  {| customers := [customer1]; sessions := [session1001; session1002] |}.

Definition worldWithTwoBlobs : World :=
  {| localStorage :=
       {| rm_customers := None;
          rm_chat_sessions := Some [session1001; session1002];
          rm_pending_uploads :=
            Some [ {| sessionId := "customer_1_1001"; audioBlob := EmptyObject;
                      retryCount := 0; lastAttempt := "2025-01-02T00:00:00.000Z" |};
                   {| sessionId := "customer_1_1002"; audioBlob := EmptyObject;
                      retryCount := 0; lastAttempt := "2025-01-03T00:00:00.000Z" |} ];
          rm_audio_blobs :=
            Some (<["customer_1_1001" := "data:audio/webm;base64,UkkA"]>
                    (<["customer_1_1002" := "data:audio/webm;base64,UkkB"]> ∅)) |};
     fileReaders := [];
     calls := mkCalls 0 0 0 0 0 0 0 0;
     trace := [] |}.

(** An environment in which every remote call succeeds and the transcriber
    is not configured. *)
Definition onlineEnv : Env :=
  {| VITE_SUPABASE_STORAGE_BUCKET := None;
     VITE_GEMINI_API_KEY := None;
     storage_list := fun _ => ListOk;
     storage_upload := fun _ => UploadOk;
     storage_getPublicUrl := fun path => "https://store.example/" +:+ path;
     storage_createSignedUrl := fun _ => SignedError;
     gemini_generateContent := fun _ => GeminiThrows;
     Date_toISOString := fun _ => "2025-01-01T00:00:00.000Z";
     FileReader_readAsDataURL := fun b => "data:" +:+ blob_type b +:+ ";base64,UkkA";
     fetch_dataURL := fun _ => blob1;
     window_confirm := fun _ => true;
     sessions_delete_eq := fun _ => DbOk;
     customers_delete_eq := fun _ => DbOk |}.

(** The object store answers the probe, and refuses every transfer with a
    network error. *)
Definition flakyEnv : Env :=
  {| VITE_SUPABASE_STORAGE_BUCKET := None;
     VITE_GEMINI_API_KEY := None;
     storage_list := fun _ => ListOk;
     storage_upload := fun _ => UploadFails (ErrorObject "Failed to fetch");
     storage_getPublicUrl := fun path => "https://store.example/" +:+ path;
     storage_createSignedUrl := fun _ => SignedError;
     gemini_generateContent := fun _ => GeminiThrows;
     Date_toISOString := fun _ => "2025-01-01T00:00:00.000Z";
     FileReader_readAsDataURL := fun b => "data:" +:+ blob_type b +:+ ";base64,UkkA";
     fetch_dataURL := fun _ => blob1;
     window_confirm := fun _ => true;
     sessions_delete_eq := fun _ => DbOk;
     customers_delete_eq := fun _ => DbOk |}.

(** The object store answers the probe, and has no bucket to write to. *)
Definition misconfiguredEnv : Env :=
  {| VITE_SUPABASE_STORAGE_BUCKET := Some "memos";
     VITE_GEMINI_API_KEY := None;
     storage_list := fun _ => ListOk;
     storage_upload := fun _ => UploadFails (ErrorObject "Bucket not found");
     storage_getPublicUrl := fun path => "https://store.example/" +:+ path;
     storage_createSignedUrl := fun _ => SignedError;
     gemini_generateContent := fun _ => GeminiThrows;
     Date_toISOString := fun _ => "2025-01-01T00:00:00.000Z";
     FileReader_readAsDataURL := fun b => "data:" +:+ blob_type b +:+ ";base64,UkkA";
     fetch_dataURL := fun _ => blob1;
     window_confirm := fun _ => true;
     sessions_delete_eq := fun _ => DbOk;
     customers_delete_eq := fun _ => DbOk |}.

(** Every store call succeeds; the transcriber has a key and its call
    throws. *)
Definition throwingTranscriberEnv : Env :=
  {| VITE_SUPABASE_STORAGE_BUCKET := None;
     VITE_GEMINI_API_KEY := Some "key";
     storage_list := fun _ => ListOk;
     storage_upload := fun _ => UploadOk;
     storage_getPublicUrl := fun path => "https://store.example/" +:+ path;
     storage_createSignedUrl := fun _ => SignedError;
     gemini_generateContent := fun _ => GeminiThrows;
     Date_toISOString := fun _ => "2025-01-01T00:00:00.000Z";
     FileReader_readAsDataURL := fun b => "data:" +:+ blob_type b +:+ ";base64,UkkA";
     fetch_dataURL := fun _ => blob1;
     window_confirm := fun _ => true;
     sessions_delete_eq := fun _ => DbOk;
     customers_delete_eq := fun _ => DbOk |}.

(** The object store cannot be reached. *)
Definition offlineEnv : Env :=
  {| VITE_SUPABASE_STORAGE_BUCKET := None;
     VITE_GEMINI_API_KEY := None;
     storage_list := fun _ => ListThrows;
     storage_upload := fun _ => UploadFails (ErrorObject "Failed to fetch");
     storage_getPublicUrl := fun path => "https://store.example/" +:+ path;
     storage_createSignedUrl := fun _ => SignedError;
     gemini_generateContent := fun _ => GeminiThrows;
     Date_toISOString := fun _ => "2025-01-01T00:00:00.000Z";
     FileReader_readAsDataURL := fun b => "data:" +:+ blob_type b +:+ ";base64,UkkA";
     fetch_dataURL := fun _ => blob1;
     window_confirm := fun _ => true;
     sessions_delete_eq := fun _ => DbError "Failed to fetch";
     customers_delete_eq := fun _ => DbError "Failed to fetch" |}.

(** ** Reading the log *)

(** The values handed to the progress callback, in order. *)
Fixpoint progressValues (evs : list Event) : list nat :=
  match evs with
  | [] => []
  | EvProgress v :: rest => v :: progressValues rest
  | _ :: rest => progressValues rest
  end.

(** The waits, in order. *)
Fixpoint sleeps (evs : list Event) : list nat :=
  match evs with
  | [] => []
  | EvSleep ms :: rest => ms :: sleeps rest
  | _ :: rest => sleeps rest
  end.

(** The events a [report] adds. *)
Definition reported (onProgress : bool) (v : nat) : list Event :=
  if onProgress then [EvProgress v] else [].

(** The pending-upload queue's session ids, in queue order. *)
Definition queuedIds (w : World) : list string :=
  sessionId <$> storageUtils.getPendingUploads w.

(** The transcription step fails: no key, or the reply at index [n] is a
    thrown call, a response that is not [ok], or a body that is not JSON. *)
Definition transcriberFails (env : Env) (n : nat) : Prop :=
  VITE_GEMINI_API_KEY env = None \/
  VITE_GEMINI_API_KEY env = Some EmptyString \/
  gemini_generateContent env n = GeminiThrows \/
  (exists errText, gemini_generateContent env n = GeminiNotOk errText) \/
  gemini_generateContent env n = GeminiBadJson.

(** The reports of one call: [10] once per attempt, then [60] and [100] if
    the last attempt got through. *)
Definition milestones (attempts : nat) (succeeded : bool) : list nat :=
  replicate attempts 10 ++ (if succeeded then [60; 100] else []).

(** A transfer made between [w] and [w'] got through. *)
Definition transferSucceeded (env : Env) (w w' : World) : Prop :=
  exists n, n_upload (calls w) <= n < n_upload (calls w') /\
            storage_upload env n = UploadOk.

(** The world right after a [try] block of [attemptUpload] that threw at
    the transfer: the progress report, the call, nothing else. *)
Definition afterFailedTry (sid : string) (blob : Blob) (onProgress : bool)
  (w : World) : World :=
  log (EvUpload (UploadService.filePathOf sid) (UploadService.fileOf blob))
    (bump ChUpload (if onProgress then log (EvProgress 10) w else w)).

#[global] Arguments afterFailedTry : simpl never.

(** Sequences of queue operations, for the reachable states of the queue. *)
Inductive QueueOp :=
| Enqueue (sid : string) (blob : Blob)
| Dequeue (sid : string).

Definition applyOp (env : Env) (w : World) (op : QueueOp) : World :=
  match op with
  | Enqueue sid blob => snd (storageUtils.addPendingUpload env sid blob w)
  | Dequeue sid => snd (storageUtils.removePendingUpload sid w)
  end.

Definition applyOps (env : Env) (ops : list QueueOp) (w : World) : World :=
  foldl (applyOp env) w ops.

Definition atMostOnePerSession (w : World) : Prop := NoDup (queuedIds w).

(** ** Further readings of the log and of the cache *)

(** The names every object inherits from [Object.prototype] in a browser.
    Under such a key an object read from JSON or written as [{}] answers
    with the inherited property, whatever was stored: the maps of this
    development describe the other keys. *)
Definition objectPrototypeNames : list string :=
  ["constructor"; "hasOwnProperty"; "isPrototypeOf"; "propertyIsEnumerable";
   "toLocaleString"; "toString"; "valueOf"; "__proto__"; "__defineGetter__";
   "__defineSetter__"; "__lookupGetter__"; "__lookupSetter__"].

(** The body of [reader.onloadend] in [saveAudioBlob], for the read of
    [blob] that was started for [sid]: whichever read ends, this is what it
    writes. *)
Definition saveAudioBlob_onloadend (env : Env) (sid : string) (blob : Blob)
  (w : World) : World :=
  storageUtils.setAudioBlobs
    (<[sid := FileReader_readAsDataURL env blob]> (storageUtils.getAudioBlobs w)) w.

(** [getAudioBlob(sid)] does not answer [null]. *)
Definition cached (env : Env) (w : World) (sid : string) : Prop :=
  is_Some (fst (storageUtils.getAudioBlob env sid w)).

#[global] Instance cached_dec env w sid : Decision (cached env w sid).
Proof. unfold cached. apply _. Defined.

(** The transfers asked of the object store, in order. *)
Fixpoint uploadsIn (evs : list Event) : list (string * Blob) :=
  match evs with
  | [] => []
  | EvUpload path file :: rest => (path, file) :: uploadsIn rest
  | _ :: rest => uploadsIn rest
  end.

(** The requests sent to the transcriber, in order. *)
Fixpoint transcriptionsIn (evs : list Event) : list (string * list Byte.byte) :=
  match evs with
  | [] => []
  | EvGemini mime data :: rest => (mime, data) :: transcriptionsIn rest
  | _ :: rest => transcriptionsIn rest
  end.

(** The status reports of [retryPendingUploads], in order. *)
Fixpoint statusesIn (evs : list Event) : list (string * string) :=
  match evs with
  | [] => []
  | EvStatus sid st :: rest => (sid, st) :: statusesIn rest
  | _ :: rest => statusesIn rest
  end.

(** What [generateTranscriptWithGemini] sends, if anything. *)
Definition transcriberEvents (env : Env) (blob : Blob) : list Event :=
  match VITE_GEMINI_API_KEY env with
  | Some (String _ _) =>
      [EvGemini (if decide (blob_type blob = EmptyString)
                 then "audio/webm" else blob_type blob) (blob_bytes blob)]
  | _ => []
  end.

(** What [generateTranscriptWithGemini] returns when its call is the
    [n]-th to the transcriber. *)
Definition transcriptOf (env : Env) (n : nat) : string :=
  match VITE_GEMINI_API_KEY env with
  | Some (String _ _) =>
      match gemini_generateContent env n with
      | GeminiJson parts =>
          trim (join " " (default EmptyString <$> default [] parts))
      | _ => EmptyString
      end
  | _ => EmptyString
  end.

(** The URL resolved after a transfer, when a signed-URL request would be
    the [k]-th. *)
Definition resolvedUrl (env : Env) (sid : string) (k : nat) : string :=
  let publicUrl := storage_getPublicUrl env (UploadService.filePathOf sid) in
  if decide (publicUrl = EmptyString) then
    match storage_createSignedUrl env k with
    | SignedOk signedUrl => signedUrl
    | SignedError => publicUrl
    end
  else publicUrl.

(** The events of a [try] block that runs to its end. *)
Definition successEvents (env : Env) (sid : string) (blob : Blob)
  (onProgress : bool) : list Event :=
  reported onProgress 10
  ++ [EvUpload (UploadService.filePathOf sid) (UploadService.fileOf blob)]
  ++ reported onProgress 60
  ++ (if decide (storage_getPublicUrl env (UploadService.filePathOf sid) = EmptyString)
      then [EvCreateSignedUrl (UploadService.filePathOf sid) (60 * 60)] else [])
  ++ transcriberEvents env blob
  ++ reported onProgress 100.

(** One turn of the loop of [retryPendingUploads]. *)
Definition retryOne (env : Env) (onProgress : bool) (upload : PendingUpload)
  : Async unit :=
  (if onProgress then effect (log (EvStatus (sessionId upload) "retrying"))
   else mret tt);;
  found ← storageUtils.getAudioBlob env (sessionId upload);
  match found with
  | Some blob =>
      result ← UploadService.uploadAudio env (sessionId upload) blob false;
      if success result then
        (if onProgress then effect (log (EvStatus (sessionId upload) "success"))
         else mret tt)
      else
        (if onProgress then effect (log (EvStatus (sessionId upload) "failed"))
         else mret tt)
  | None => mret tt
  end.

(** The status reports a pass makes for a session: [retrying], and then
    [outcome] if its blob is cached. *)
Definition statusReports (env : Env) (w : World) (outcome : string)
  (sid : string) : list (string * string) :=
  if decide (cached env w sid)
  then [(sid, "retrying"%string); (sid, outcome)]
  else [(sid, "retrying"%string)].

(** ** [src/utils/audioRecorder.ts] *)

Module AudioRecorder.

(** [MediaRecorder.state] *)
Inductive RecordingState := inactive | recording | paused.

(** The fields of the class: [mediaRecorder] is [null] or refers to a
    [MediaRecorder], of which the model keeps the state; [stream] tells
    whether a [MediaStream] is held. *)
Record t := mk {
  mediaRecorder : option RecordingState;
  audioChunks : list Blob;
  stream : bool;
  isPaused : bool;
}.

(** [new AudioRecorder()] *)
Definition create : t :=
  {| mediaRecorder := None; audioChunks := []; stream := false; isPaused := false |}.

(** How [initialize] goes: [getUserMedia] resolves and the [MediaRecorder]
    is built, [getUserMedia] rejects, or the constructor throws. *)
Inductive MediaReply := StreamGranted | StreamDenied | RecorderRefused.

(** [initialize()]: the [Error] it throws, if any, and the fields after. *)
Definition initialize (reply : MediaReply) (r : t) : option string * t :=
  match reply with
  | StreamGranted =>
      (None, {| mediaRecorder := Some inactive; audioChunks := audioChunks r;
                stream := true; isPaused := isPaused r |})
  | StreamDenied =>
      (Some "Microphone access denied or not available"%string, r)
  | RecorderRefused =>
      (Some "Microphone access denied or not available"%string,
       {| mediaRecorder := mediaRecorder r; audioChunks := audioChunks r;
          stream := true; isPaused := isPaused r |})
  end.

(** The [ondataavailable] handler installed by [initialize]. *)
Definition ondataavailable (data : Blob) (r : t) : t :=
  if 0 <? length (blob_bytes data) then
    {| mediaRecorder := mediaRecorder r; audioChunks := audioChunks r ++ [data];
       stream := stream r; isPaused := isPaused r |}
  else r.

Definition start (r : t) : t :=
  match mediaRecorder r with
  | Some inactive =>
      {| mediaRecorder := Some recording; audioChunks := [];
         stream := stream r; isPaused := false |}
  | _ => r
  end.

Definition pause (r : t) : t :=
  match mediaRecorder r with
  | Some recording =>
      {| mediaRecorder := Some paused; audioChunks := audioChunks r;
         stream := stream r; isPaused := true |}
  | _ => r
  end.

Definition resume (r : t) : t :=
  match mediaRecorder r with
  | Some paused =>
      {| mediaRecorder := Some recording; audioChunks := audioChunks r;
         stream := stream r; isPaused := false |}
  | _ => r
  end.

(** [new Blob(chunks, { type })] *)
Definition concatBlobs (chunks : list Blob) (type : string) : Blob :=
  {| blob_bytes := concat (blob_bytes <$> chunks); blob_type := type |}.

(** How the promise of [stop] settles. On a [MediaRecorder] that is
    [inactive] the browser's [stop] starts nothing and [onstop] never runs:
    the promise does not resolve. *)
Inductive StopResult :=
| Rejected (message : string)
| Resolved (audioBlob : Blob)
| NotResolved.

(** [stop()], run to the [stop] event with nothing in between: the browser
    makes the recorder [inactive], hands the data it still holds to
    [ondataavailable], and fires [onstop]. *)
Definition stop (finalData : Blob) (r : t) : StopResult * t :=
  match mediaRecorder r with
  | None => (Rejected "Recorder not initialized", r)
  | Some inactive => (NotResolved, r)
  | Some _ =>
      let r' := ondataavailable finalData
                  {| mediaRecorder := Some inactive; audioChunks := audioChunks r;
                     stream := stream r; isPaused := isPaused r |} in
      (Resolved (concatBlobs (audioChunks r') "audio/webm"), r')
  end.

Definition getState (r : t) : string :=
  match mediaRecorder r with
  | Some recording => "recording"
  | Some paused => "paused"
  | _ => "inactive"
  end.

Definition isRecording (r : t) : bool :=
  match mediaRecorder r with
  | Some recording => true
  | _ => false
  end.

Definition isPausedState (r : t) : bool := isPaused r.

Definition cleanup (r : t) : t :=
  {| mediaRecorder := None; audioChunks := []; stream := false; isPaused := false |}.

(** What can happen to a recorder, one after the other. *)
Inductive Op :=
| OpInitialize (reply : MediaReply)
| OpStart
| OpPause
| OpResume
| OpData (data : Blob)
| OpStop (finalData : Blob)
| OpCleanup.

Definition step (r : t) (op : Op) : t :=
  match op with
  | OpInitialize reply => snd (initialize reply r)
  | OpStart => start r
  | OpPause => pause r
  | OpResume => resume r
  | OpData data => ondataavailable data r
  | OpStop finalData => snd (stop finalData r)
  | OpCleanup => cleanup r
  end.

Definition run (ops : list Op) (r : t) : t := foldl step r ops.

(** The operations of one take: no [initialize], [stop] or [cleanup]. *)
Definition duringTake (op : Op) : bool :=
  match op with
  | OpStart | OpPause | OpResume | OpData _ => true
  | _ => false
  end.

(** The data the browser delivered, in order. *)
Fixpoint delivered (ops : list Op) : list Blob :=
  match ops with
  | [] => []
  | OpData data :: rest => data :: delivered rest
  | _ :: rest => delivered rest
  end.

(** What holds of the fields after any sequence of operations. *)
Definition consistent (r : t) : Prop :=
  (mediaRecorder r = Some recording -> isPaused r = false)
  /\ (mediaRecorder r = Some paused -> isPaused r = true)
  /\ (isPaused r = true ->
      mediaRecorder r = Some paused \/ mediaRecorder r = Some inactive)
  /\ (mediaRecorder r <> None -> stream r = true).

End AudioRecorder.

(** ** The [App] component: the other handlers *)

(** [a || b] on strings that may be [undefined]. *)
Definition orElse (a : option string) (b : string) : string :=
  match a with
  | Some (String c rest) => String c rest
  | _ => b
  end.

(** [s.padStart(n, fill)] for a one-character [fill]. *)
Definition padStart (n : nat) (fill : ascii) (s : string) : string :=
  string_of_list_ascii (replicate (n - String.length s) fill) +:+ s.

(** What the customer form holds and hands to [onAddCustomer]. *)
Record CustomerData := mkCustomerData {
  data_name : string;
  data_email : string;
  data_phone : string;
}.

Module CustomerList.

(** [handleSubmit]: what it hands to [onAddCustomer], if anything. *)
Definition handleSubmit (formData : CustomerData) : option CustomerData :=
  match data_name formData, data_email formData, data_phone formData with
  | String _ _, String _ _, String _ _ => Some formData
  | _, _, _ => None
  end.

End CustomerList.

Module AppHandlers.
Section WithEnv.
Context (env : Env).

(** [handleAddCustomer], when [Date.now()] reads [now] and the record
    store answers the insert with [inserted]. *)
Definition handleAddCustomer (now : nat) (inserted : DbReply) (st : AppState)
  (customerData : CustomerData) : Async AppState :=
  n ← ask (fun w => count (calls w) ChDate);
  effect (bump ChDate);;
  let newCustomer :=
    {| customer_id := "customer_" +:+ pretty now;
       customer_name := data_name customerData;
       customer_email := data_email customerData;
       customer_phone := data_phone customerData;
       customer_createdAt := Date_toISOString env n |} in
  let updatedCustomers := customers st ++ [newCustomer] in
  match inserted with
  | DbOk => mret tt
  | DbError _ => effect (storageUtils.saveCustomers updatedCustomers)
  end;;
  mret {| customers := updatedCustomers; sessions := sessions st |}.

(** [handleSessionComplete], when the record store answers the insert with
    [inserted]. A session whose [audioBlob] is no [Blob] any more makes the
    final save throw, after the writes before it. *)
Definition handleSessionComplete (inserted : DbReply) (st : AppState)
  (session : ChatSession) : Async AppState :=
  let updatedSessions := sessions st ++ [session] in
  match inserted with
  | DbOk => effect (storageUtils.saveSessions updatedSessions)
  | DbError _ => effect (storageUtils.saveSessions updatedSessions)
  end;;
  match session_audioBlob session with
  | Some (LiveBlob blob) => effect (storageUtils.saveAudioBlob (id session) blob)
  | Some EmptyObject => mret tt
  | None => mret tt
  end;;
  mret {| customers := customers st; sessions := updatedSessions |}.

(** [loadInitialData]: [None] stands for a list call that threw. *)
Definition loadInitialData (dbCustomers : option (list Customer))
  (dbSessions : option (list ChatSession)) : Async AppState :=
  match dbCustomers, dbSessions with
  | Some cs, Some ss => mret {| customers := cs; sessions := ss |}
  | _, _ =>
      loadedCustomers ← ask storageUtils.getCustomers;
      loadedSessions ← ask storageUtils.getSessions;
      mret {| customers := loadedCustomers; sessions := loadedSessions |}
  end.

End WithEnv.
End AppHandlers.

(** ** The [ChatInterface] component *)

Module ChatInterface.

(** [formatTime(seconds)], for a count of seconds (an integer that a
    number holds exactly, so that [toString] prints its decimal digits). *)
Definition formatTime (seconds : nat) : string :=
  padStart 2 "0" (pretty (seconds / 60)) +:+ ":" +:+ padStart 2 "0" (pretty (seconds mod 60)).

Section WithEnv.
Context (env : Env).

(** [handleUpload], when [Date.now()] reads [now]: the session handed to
    [onSessionComplete] and the status message, or nothing when there is no
    recording. [audioBlob], [objectUrl] (the state [audioUrl]) and
    [recordingTime] are the component's state. *)
Definition handleUpload (now : nat) (customer : Customer) (audioBlob : option Blob)
  (objectUrl : string) (recordingTime : nat) : Async (option (ChatSession * string)) :=
  match audioBlob with
  | None => mret None
  | Some blob =>
      let sessionId := customer_id customer +:+ "_" +:+ pretty now in
      result ← UploadService.uploadAudio env sessionId blob true;
      n ← ask (fun w => count (calls w) ChDate);
      effect (bump ChDate);;
      if success result then
        mret (Some ({| id := sessionId;
                       customerId := customer_id customer;
                       customerName := customer_name customer;
                       date := Date_toISOString env n;
                       session_audioBlob := Some (LiveBlob blob);
                       session_audioUrl := Some (orElse (audioUrl result) objectUrl);
                       session_transcript := orElse (transcript result) EmptyString;
                       duration := recordingTime;
                       status := uploaded |},
                    "Upload successful!"%string))
      else
        mret (Some ({| id := sessionId;
                       customerId := customer_id customer;
                       customerName := customer_name customer;
                       date := Date_toISOString env n;
                       session_audioBlob := Some (LiveBlob blob);
                       session_audioUrl := Some objectUrl;
                       session_transcript := "Pending upload...";
                       duration := recordingTime;
                       status := pending |},
                    orElse (error result) "Upload failed"))
  end.

End WithEnv.
End ChatInterface.

(** ** The [ChatHistory] component *)

Module ChatHistory.

(** [formatDuration(seconds)], for a count of seconds as in [formatTime]. *)
Definition formatDuration (seconds : nat) : string :=
  pretty (seconds / 60) +:+ ":" +:+ padStart 2 "0" (pretty (seconds mod 60)).

(** [toggleSession]: the next value of [expandedSessions]. *)
Definition toggleSession (sessionId : string) (expandedSessions : gset string)
  : gset string :=
  if decide (sessionId ∈ expandedSessions)
  then expandedSessions ∖ {[sessionId]}
  else expandedSessions ∪ {[sessionId]}.

(** [groupedSessions]: the sessions under their [customerName]; [None] when
    [acc[key].push] throws, [acc[key]] being an inherited property. *)
Definition groupedSessions (sessions : list ChatSession)
  : option (gmap string (list ChatSession)) :=
  foldl (fun acc session =>
           acc ← acc;
           let key := customerName session in
           if decide (key ∈ objectPrototypeNames) then None
           else Some (<[key := default [] (acc !! key) ++ [session]]> acc))
        (Some ∅) sessions.

End ChatHistory.

(** Runs the monadic plumbing of a computation. *)
Ltac run :=
  unfold mbind, mret, Async_bind, Async_ret, effect, ask in *; simpl in *.

(** ** Generic facts *)

Lemma since_app (w0 w : World) (evs : list Event) :
  trace w = trace w0 ++ evs -> since w0 w = evs.
Proof.
  intros H. unfold since. rewrite H. apply drop_app_length.
Qed.

Lemma since_refl (w : World) : since w w = [].
Proof. apply since_app. now rewrite app_nil_r. Qed.

Lemma progressValues_app (a b : list Event) :
  progressValues (a ++ b) = progressValues a ++ progressValues b.
Proof.
  induction a as [|e a IH]; simpl; [reflexivity|].
  destruct e; simpl; rewrite ?IH; reflexivity.
Qed.

Lemma sleeps_app (a b : list Event) :
  sleeps (a ++ b) = sleeps a ++ sleeps b.
Proof.
  induction a as [|e a IH]; simpl; [reflexivity|].
  destruct e; simpl; rewrite ?IH; reflexivity.
Qed.

Lemma progressValues_reported (onProgress : bool) (v : nat) :
  progressValues (reported onProgress v) = if onProgress then [v] else [].
Proof. destruct onProgress; reflexivity. Qed.

Lemma filter_all {A} (P : A -> Prop) `{forall x, Decision (P x)} (l : list A) :
  (forall x, x ∈ l -> P x) -> filter P l = l.
Proof.
  induction l as [|x l IH]; intros Hall; [reflexivity|].
  rewrite filter_cons_True by (apply Hall; left).
  rewrite IH; [reflexivity|]. intros y Hy. apply Hall. now right.
Qed.

Lemma filter_none {A} (P : A -> Prop) `{forall x, Decision (P x)} (l : list A) :
  (forall x, x ∈ l -> ~ P x) -> filter P l = [].
Proof.
  induction l as [|x l IH]; intros Hnone; [reflexivity|].
  rewrite filter_cons_False by (apply Hnone; left).
  apply IH. intros y Hy. apply Hnone. now right.
Qed.

Lemma json_upload_sessionId (l : list PendingUpload) :
  sessionId <$> (json_upload <$> l) = sessionId <$> l.
Proof. rewrite <- list_fmap_compose. now apply list_fmap_ext. Qed.

(** ** One attempt *)

Section Attempt.
Context (env : Env).

Import UploadService.

#[local] Arguments filePathOf : simpl never.
#[local] Arguments fileOf : simpl never.
#[local] Arguments trim : simpl never.
#[local] Arguments join : simpl never.

Lemma tryUpload_fails sid blob onProgress w e :
  storage_upload env (n_upload (calls w)) = UploadFails e ->
  tryUpload env sid blob onProgress w = (inl e, afterFailedTry sid blob onProgress w).
Proof.
  intros H. unfold tryUpload, report, afterFailedTry. run.
  destruct onProgress; simpl; rewrite H; reflexivity.
Qed.

Lemma afterFailedTry_trace sid blob onProgress w :
  trace (afterFailedTry sid blob onProgress w) =
  trace w ++ reported onProgress 10 ++ [EvUpload (filePathOf sid) (fileOf blob)].
Proof.
  unfold afterFailedTry. destruct onProgress; simpl.
  - now rewrite <- app_assoc.
  - reflexivity.
Qed.

Lemma afterFailedTry_calls sid blob onProgress w :
  calls (afterFailedTry sid blob onProgress w) = incr ChUpload (calls w).
Proof. unfold afterFailedTry. destruct onProgress; reflexivity. Qed.

Lemma afterFailedTry_storage sid blob onProgress w :
  localStorage (afterFailedTry sid blob onProgress w) = localStorage w /\
  fileReaders (afterFailedTry sid blob onProgress w) = fileReaders w.
Proof. unfold afterFailedTry. destruct onProgress; split; reflexivity. Qed.

Lemma generateTranscript_spec blob w :
  exists text w1,
    generateTranscriptWithGemini env blob w = (text, w1) /\
    (transcriberFails env (n_gemini (calls w)) -> text = EmptyString) /\
    localStorage w1 = localStorage w /\
    fileReaders w1 = fileReaders w /\
    n_upload (calls w1) = n_upload (calls w) /\
    n_list (calls w1) = n_list (calls w) /\
    exists evs, trace w1 = trace w ++ evs /\ progressValues evs = [] /\ sleeps evs = [].
Proof.
  unfold generateTranscriptWithGemini, geminiApiKey, transcriberFails.
  destruct (VITE_GEMINI_API_KEY env) as [[|c key]|] eqn:Hk.
  - run. exists EmptyString, w. repeat split; trivial.
    exists []. now rewrite app_nil_r.
  - run.
    destruct (gemini_generateContent env (n_gemini (calls w))) as [| errText | | parts] eqn:Hr;
      eexists; eexists; (split; [reflexivity|]); simpl;
      (split; [|repeat split; trivial; eexists; split; [reflexivity|split; reflexivity]]).
    all: try (intros _; reflexivity).
    intros [?|[?|[?|[[? ?]|?]]]]; congruence.
  - run. exists EmptyString, w. repeat split; trivial.
    exists []. now rewrite app_nil_r.
Qed.

Lemma tryUpload_ok sid blob onProgress w :
  storage_upload env (n_upload (calls w)) = UploadOk ->
  exists r w1,
    tryUpload env sid blob onProgress w = (inr r, w1) /\
    success r = true /\ error r = None /\
    (transcriberFails env (n_gemini (calls w)) -> transcript r = Some EmptyString) /\
    localStorage w1 =
      localStorage (storageUtils.savePendingUploads
                      (filter (fun u => sessionId u <> sid)
                              (storageUtils.getPendingUploads w)) w) /\
    fileReaders w1 = fileReaders w /\
    n_upload (calls w1) = S (n_upload (calls w)) /\
    n_list (calls w1) = n_list (calls w) /\
    exists evs, trace w1 = trace w ++ evs /\
      progressValues evs = (if onProgress then [10; 60; 100] else []) /\
      sleeps evs = [].
Proof.
  intros H. unfold tryUpload, report, storageUtils.removePendingUpload. run.
  destruct onProgress; simpl; rewrite H;
    destruct (decide (storage_getPublicUrl env (filePathOf sid) = EmptyString)) as [Hp|Hp];
    simpl; try destruct (storage_createSignedUrl env (n_signedUrl (calls w)));
    simpl.
  all: match goal with
       | |- context [generateTranscriptWithGemini env ?b ?W] =>
           destruct (generateTranscript_spec b W)
             as (text & w2 & Heq & Hfail & Hls & Hfr & Hnu & Hnl & evs & Htr & Hpv & Hsl)
       end.
  all: rewrite Heq; simpl in *.
  all: eexists; eexists; split; [reflexivity|]; simpl.
  all: unfold storageUtils.getPendingUploads; simpl; rewrite ?Hls, ?Hfr, ?Hnu, ?Hnl, ?Htr.
  all: split; [reflexivity|]; split; [reflexivity|].
  all: split; [intros Hf; now rewrite (Hfail Hf)|].
  all: split; [reflexivity|]; split; [reflexivity|].
  all: split; [reflexivity|]; split; [reflexivity|].
  all: eexists; split; [rewrite <- ?app_assoc; simpl; reflexivity|].
  all: simpl; rewrite ?progressValues_app, ?sleeps_app, ?Hpv, ?Hsl; simpl.
  all: split; reflexivity.
Qed.

(** *** The four ways an attempt can go *)

Lemma attemptUpload_success sid blob retryCount onProgress w r w1 :
  tryUpload env sid blob onProgress w = (inr r, w1) ->
  attemptUpload env sid blob retryCount onProgress w = (r, w1).
Proof. intros H. rewrite attemptUpload_equation_1, H. reflexivity. Qed.

Lemma attemptUpload_config sid blob retryCount onProgress w e :
  storage_upload env (n_upload (calls w)) = UploadFails e ->
  isBucketNotFound (errorMessage e) = true ->
  attemptUpload env sid blob retryCount onProgress w =
  ({| success := false; transcript := None; audioUrl := None;
      error := Some (bucketNotFoundMessage env) |},
   afterFailedTry sid blob onProgress w).
Proof.
  intros H Hb. rewrite attemptUpload_equation_1, (tryUpload_fails _ _ _ _ _ H).
  simpl. rewrite Hb. reflexivity.
Qed.

Lemma attemptUpload_retry sid blob retryCount onProgress w e :
  storage_upload env (n_upload (calls w)) = UploadFails e ->
  isBucketNotFound (errorMessage e) = false ->
  retryCount < maxRetries ->
  attemptUpload env sid blob retryCount onProgress w =
  attemptUpload env sid blob (retryCount + 1) onProgress
    (log (EvSleep (retryDelay * (retryCount + 1)))
         (afterFailedTry sid blob onProgress w)).
Proof.
  intros H Hb Hlt. rewrite attemptUpload_equation_1, (tryUpload_fails _ _ _ _ _ H).
  simpl. rewrite Hb. destruct (lt_dec retryCount maxRetries); [reflexivity|lia].
Qed.

Lemma attemptUpload_exhausted sid blob retryCount onProgress w e :
  storage_upload env (n_upload (calls w)) = UploadFails e ->
  isBucketNotFound (errorMessage e) = false ->
  ~ retryCount < maxRetries ->
  attemptUpload env sid blob retryCount onProgress w =
  ({| success := false; transcript := None; audioUrl := None;
      error := Some (exhaustedMessage (errorMessage e)) |},
   snd (storageUtils.addPendingUpload env sid blob
          (afterFailedTry sid blob onProgress w))).
Proof.
  intros H Hb Hge. rewrite attemptUpload_equation_1, (tryUpload_fails _ _ _ _ _ H).
  simpl. rewrite Hb. destruct (lt_dec retryCount maxRetries); [lia|reflexivity].
Qed.

(** Induction over the attempts of one call, by the retries left. *)
Lemma attemptUpload_ind sid blob onProgress
  (P : nat -> World -> UploadResult * World -> Prop) :
  (forall retryCount w,
      storage_upload env (n_upload (calls w)) = UploadOk ->
      P retryCount w (attemptUpload env sid blob retryCount onProgress w)) ->
  (forall retryCount w e,
      storage_upload env (n_upload (calls w)) = UploadFails e ->
      isBucketNotFound (errorMessage e) = true ->
      P retryCount w (attemptUpload env sid blob retryCount onProgress w)) ->
  (forall retryCount w e,
      storage_upload env (n_upload (calls w)) = UploadFails e ->
      isBucketNotFound (errorMessage e) = false ->
      retryCount < maxRetries ->
      let w2 := log (EvSleep (retryDelay * (retryCount + 1)))
                    (afterFailedTry sid blob onProgress w) in
      P (retryCount + 1) w2
        (attemptUpload env sid blob (retryCount + 1) onProgress w2) ->
      P retryCount w (attemptUpload env sid blob (retryCount + 1) onProgress w2)) ->
  (forall retryCount w e,
      storage_upload env (n_upload (calls w)) = UploadFails e ->
      isBucketNotFound (errorMessage e) = false ->
      ~ retryCount < maxRetries ->
      P retryCount w (attemptUpload env sid blob retryCount onProgress w)) ->
  forall retryCount w,
    P retryCount w (attemptUpload env sid blob retryCount onProgress w).
Proof.
  intros Hok Hcfg Hretry Hexh retryCount.
  remember (maxRetries - retryCount) as left eqn:Hleft.
  revert retryCount Hleft.
  induction left as [left IH] using lt_wf_ind. intros retryCount Hleft w.
  destruct (storage_upload env (n_upload (calls w))) as [|e] eqn:Hr.
  - now apply Hok.
  - destruct (isBucketNotFound (errorMessage e)) eqn:Hb.
    + now apply (Hcfg _ _ e).
    + destruct (lt_dec retryCount maxRetries) as [Hlt|Hge].
      * rewrite (attemptUpload_retry _ _ _ _ _ _ Hr Hb Hlt).
        apply (Hretry _ _ e Hr Hb Hlt).
        apply (IH (maxRetries - (retryCount + 1))); [lia|reflexivity].
      * now apply (Hexh _ _ e).
Qed.

End Attempt.

(** ** The pending-upload queue *)

Section Queue.
Context (env : Env).

Lemma addPendingUpload_world sid blob w :
  snd (storageUtils.addPendingUpload env sid blob w) =
  storageUtils.saveAudioBlob sid blob
    (storageUtils.savePendingUploads
       (storageUtils.getPendingUploads w ++
          [ {| sessionId := sid; audioBlob := LiveBlob blob; retryCount := 0;
               lastAttempt := Date_toISOString env (n_date (calls w)) |} ])
       (bump ChDate w)).
Proof. reflexivity. Qed.

Lemma addPendingUpload_calls sid blob w :
  calls (snd (storageUtils.addPendingUpload env sid blob w)) = incr ChDate (calls w).
Proof. reflexivity. Qed.

Lemma addPendingUpload_trace sid blob w :
  trace (snd (storageUtils.addPendingUpload env sid blob w)) = trace w.
Proof. reflexivity. Qed.

Lemma addPendingUpload_fileReaders sid blob w :
  fileReaders (snd (storageUtils.addPendingUpload env sid blob w)) =
  fileReaders w ++ [(sid, blob)].
Proof. reflexivity. Qed.

Lemma addPendingUpload_queue sid blob w :
  storageUtils.getPendingUploads (snd (storageUtils.addPendingUpload env sid blob w)) =
  (json_upload <$> storageUtils.getPendingUploads w) ++
  [ {| sessionId := sid; audioBlob := EmptyObject; retryCount := 0;
       lastAttempt := Date_toISOString env (n_date (calls w)) |} ].
Proof.
  rewrite addPendingUpload_world. unfold storageUtils.getPendingUploads. simpl.
  now rewrite fmap_app.
Qed.

Lemma removePendingUpload_queue sid w :
  storageUtils.getPendingUploads (snd (storageUtils.removePendingUpload sid w)) =
  json_upload <$> filter (fun u => sessionId u <> sid) (storageUtils.getPendingUploads w).
Proof. reflexivity. Qed.

Lemma queuedIds_add sid blob w :
  queuedIds (snd (storageUtils.addPendingUpload env sid blob w)) = queuedIds w ++ [sid].
Proof.
  unfold queuedIds.
  rewrite addPendingUpload_queue, fmap_app, json_upload_sessionId. reflexivity.
Qed.

Lemma queuedIds_saved (l : list PendingUpload) w :
  queuedIds (storageUtils.savePendingUploads l w) = sessionId <$> l.
Proof. unfold queuedIds. simpl. apply json_upload_sessionId. Qed.

Lemma sessionId_filter sid (l : list PendingUpload) :
  sessionId <$> filter (fun u => sessionId u <> sid) l =
  filter (fun i => i <> sid) (sessionId <$> l).
Proof.
  induction l as [|u l IH]; [reflexivity|].
  rewrite fmap_cons, !filter_cons.
  destruct (decide (sessionId u <> sid)); [rewrite fmap_cons|]; now rewrite IH.
Qed.

Lemma queuedIds_remove sid w :
  queuedIds (snd (storageUtils.removePendingUpload sid w)) =
  filter (fun i => i <> sid) (queuedIds w).
Proof.
  unfold queuedIds.
  rewrite removePendingUpload_queue, json_upload_sessionId. apply sessionId_filter.
Qed.

(** C1, as amended: [addPendingUpload] appends one entry with
    [retryCount = 0] behind the entries already queued, whatever their
    session ids, and [removePendingUpload] keeps exactly the entries of the
    other session ids, in order; so the queue has at most one entry per
    session id after an enqueue exactly when it had before and the session
    had no entry, and still has after a removal. *)
Theorem pending_queue_append_and_filter sid blob w :
  storageUtils.getPendingUploads (snd (storageUtils.addPendingUpload env sid blob w)) =
    (json_upload <$> storageUtils.getPendingUploads w) ++
    [ {| sessionId := sid; audioBlob := EmptyObject; retryCount := 0;
         lastAttempt := Date_toISOString env (n_date (calls w)) |} ]
  /\ queuedIds (snd (storageUtils.addPendingUpload env sid blob w)) = queuedIds w ++ [sid]
  /\ queuedIds (snd (storageUtils.removePendingUpload sid w)) =
       filter (fun i => i <> sid) (queuedIds w)
  /\ (atMostOnePerSession (snd (storageUtils.addPendingUpload env sid blob w)) <->
       atMostOnePerSession w /\ sid ∉ queuedIds w)
  /\ (atMostOnePerSession w ->
       atMostOnePerSession (snd (storageUtils.removePendingUpload sid w))).
Proof.
  split; [apply addPendingUpload_queue|].
  split; [apply queuedIds_add|]. split; [apply queuedIds_remove|].
  unfold atMostOnePerSession. rewrite queuedIds_add, queuedIds_remove. split.
  - rewrite NoDup_app. split.
    + intros (Hnd & Hnot & _). split; [exact Hnd|].
      intros Hin. apply (Hnot sid Hin). left.
    + intros [Hnd Hnot]. split; [exact Hnd|]. split.
      * intros i Hi Hi'. apply list_elem_of_singleton in Hi'. now subst i.
      * apply NoDup_singleton.
  - apply NoDup_filter.
Qed.

End Queue.

(** C1, as stated, fails: enqueuing twice for one session id leaves two
    entries with that id. *)
Lemma pending_queue_duplicates :
  ~ atMostOnePerSession
      (applyOps onlineEnv [Enqueue "s1" blob1; Enqueue "s1" blob1] freshWorld).
Proof.
  unfold atMostOnePerSession.
  replace (queuedIds _) with ["s1"; "s1"]%string by (vm_compute; reflexivity).
  intros H. apply NoDup_cons in H as [Hn _]. apply Hn. left.
Qed.

(** ** [uploadAudio] *)

Section Upload.
Context (env : Env).

Import UploadService.

Lemma uploadAudio_connected sid blob onProgress w :
  storage_list env (n_list (calls w)) = ListOk ->
  uploadAudio env sid blob onProgress w =
  attemptUpload env sid blob 0 onProgress (log EvList (bump ChList w)).
Proof. intros H. unfold uploadAudio, checkServerConnection. run. now rewrite H. Qed.

Lemma uploadAudio_disconnected sid blob onProgress w :
  storage_list env (n_list (calls w)) <> ListOk ->
  uploadAudio env sid blob onProgress w =
  ({| success := false; transcript := None; audioUrl := None;
      error := Some "Supabase is not reachable. Recording saved for later upload." |},
   snd (storageUtils.addPendingUpload env sid blob (log EvList (bump ChList w)))).
Proof.
  intros H. unfold uploadAudio, checkServerConnection. run.
  destruct (storage_list env (n_list (calls w))); [congruence| |]; reflexivity.
Qed.

(** C3: when the connectivity probe fails, [uploadAudio] returns
    [success = false] with the message that the recording is saved for later
    upload, the queue has one more entry, for this session and with
    [retryCount = 0], and the probe is the only remote call made: no transfer
    is attempted. *)
Theorem uploadAudio_unreachable sid blob onProgress w :
  storage_list env (n_list (calls w)) <> ListOk ->
  let '(r, w') := uploadAudio env sid blob onProgress w in
  success r = false
  /\ error r = Some "Supabase is not reachable. Recording saved for later upload."
  /\ storageUtils.getPendingUploads w' =
       (json_upload <$> storageUtils.getPendingUploads w) ++
       [ {| sessionId := sid; audioBlob := EmptyObject; retryCount := 0;
            lastAttempt := Date_toISOString env (n_date (calls w)) |} ]
  /\ fileReaders w' = fileReaders w ++ [(sid, blob)]
  /\ since w w' = [EvList]
  /\ n_upload (calls w') = n_upload (calls w).
Proof.
  intros H. rewrite (uploadAudio_disconnected _ _ _ _ H).
  repeat split.
  - now rewrite addPendingUpload_queue.
  - now apply since_app.
Qed.

(** *** Success: the queue loses the session's entries *)

Lemma attemptUpload_success_storage sid blob onProgress retryCount w :
  let '(r, w') := attemptUpload env sid blob retryCount onProgress w in
  success r = true ->
  localStorage w' =
    localStorage (storageUtils.savePendingUploads
                    (filter (fun u => sessionId u <> sid)
                            (storageUtils.getPendingUploads w)) w)
  /\ fileReaders w' = fileReaders w.
Proof.
  revert retryCount w.
  apply (attemptUpload_ind env sid blob onProgress
           (fun _ w rw' => let '(r, w') := rw' in
              success r = true ->
              localStorage w' =
                localStorage (storageUtils.savePendingUploads
                                (filter (fun u => sessionId u <> sid)
                                        (storageUtils.getPendingUploads w)) w)
              /\ fileReaders w' = fileReaders w)).
  - intros retryCount w Hok.
    destruct (tryUpload_ok env sid blob onProgress w Hok)
      as (r & w1 & Htry & _ & _ & _ & Hls & Hfr & _).
    rewrite (attemptUpload_success env _ _ retryCount _ _ _ _ Htry). now intros _.
  - intros retryCount w e Hr Hb. rewrite (attemptUpload_config env _ _ _ _ _ _ Hr Hb).
    simpl. discriminate.
  - intros retryCount w e Hr Hb Hlt w2.
    destruct (attemptUpload env sid blob (retryCount + 1) onProgress w2) as [r w'].
    intros IH Hs. destruct (IH Hs) as [Hls Hfr].
    destruct (afterFailedTry_storage sid blob onProgress w) as [Hls0 Hfr0].
    unfold storageUtils.getPendingUploads in *. subst w2. simpl in *.
    rewrite Hls0 in Hls. rewrite Hfr0 in Hfr. now split.
  - intros retryCount w e Hr Hb Hge.
    rewrite (attemptUpload_exhausted env _ _ _ _ _ _ Hr Hb Hge). simpl. discriminate.
Qed.

(** C7: a call of [uploadAudio] that reports [success = true] leaves no
    entry of that session id in the pending-upload queue; the entries of the
    other session ids stay, in order. *)
Theorem uploadAudio_success_clears_queue sid blob onProgress w :
  let '(r, w') := uploadAudio env sid blob onProgress w in
  success r = true ->
  (forall u, u ∈ storageUtils.getPendingUploads w' -> sessionId u <> sid)
  /\ queuedIds w' = filter (fun i => i <> sid) (queuedIds w).
Proof.
  destruct (decide (storage_list env (n_list (calls w)) = ListOk)) as [Hl|Hl].
  - rewrite (uploadAudio_connected _ _ _ _ Hl).
    pose proof (attemptUpload_success_storage sid blob onProgress 0
                  (log EvList (bump ChList w))) as H.
    destruct (attemptUpload env sid blob 0 onProgress (log EvList (bump ChList w)))
      as [r w'].
    intros Hs. destruct (H Hs) as [Hls _].
    assert (Hq : storageUtils.getPendingUploads w' =
                 storageUtils.getPendingUploads
                   (snd (storageUtils.removePendingUpload sid w))).
    { unfold storageUtils.getPendingUploads at 1. rewrite Hls. reflexivity. }
    split.
    + intros u Hu. rewrite Hq, removePendingUpload_queue in Hu.
      apply list_elem_of_fmap in Hu as (u0 & -> & Hu0).
      apply list_elem_of_filter in Hu0 as [Hne _]. exact Hne.
    + unfold queuedIds at 1. rewrite Hq.
      apply queuedIds_remove.
  - rewrite (uploadAudio_disconnected _ _ _ _ Hl). simpl. discriminate.
Qed.

(** *** The configuration error leaves the cache alone *)

Lemma bucketNotFoundMessage_not_exhausted m :
  exhaustedMessage m <> bucketNotFoundMessage env.
Proof. unfold exhaustedMessage, bucketNotFoundMessage. simpl. discriminate. Qed.

Lemma bucketNotFoundMessage_not_unreachable :
  "Supabase is not reachable. Recording saved for later upload."%string
  <> bucketNotFoundMessage env.
Proof. unfold bucketNotFoundMessage. simpl. discriminate. Qed.

Lemma attemptUpload_config_storage sid blob onProgress retryCount w :
  let '(r, w') := attemptUpload env sid blob retryCount onProgress w in
  error r = Some (bucketNotFoundMessage env) ->
  localStorage w' = localStorage w /\ fileReaders w' = fileReaders w.
Proof.
  revert retryCount w.
  apply (attemptUpload_ind env sid blob onProgress
           (fun _ w rw' => let '(r, w') := rw' in
              error r = Some (bucketNotFoundMessage env) ->
              localStorage w' = localStorage w /\ fileReaders w' = fileReaders w)).
  - intros retryCount w Hok.
    destruct (tryUpload_ok env sid blob onProgress w Hok)
      as (r & w1 & Htry & _ & He & _).
    rewrite (attemptUpload_success env _ _ retryCount _ _ _ _ Htry).
    rewrite He. discriminate.
  - intros retryCount w e Hr Hb. rewrite (attemptUpload_config env _ _ _ _ _ _ Hr Hb).
    intros _. apply afterFailedTry_storage.
  - intros retryCount w e Hr Hb Hlt w2.
    destruct (attemptUpload env sid blob (retryCount + 1) onProgress w2) as [r w'].
    intros IH He. destruct (IH He) as [Hls Hfr].
    destruct (afterFailedTry_storage sid blob onProgress w) as [Hls0 Hfr0].
    subst w2. simpl in *. rewrite Hls, Hfr. now split.
  - intros retryCount w e Hr Hb Hge.
    rewrite (attemptUpload_exhausted env _ _ _ _ _ _ Hr Hb Hge).
    intros He. exfalso. apply (inj Some) in He.
    exact (bucketNotFoundMessage_not_exhausted _ He).
Qed.

(** C10: a call of [uploadAudio] that ends with the bucket-not-found
    configuration error has written nothing to [localStorage] (the queue and
    the cached blobs are as before) and has started no blob save. *)
Theorem uploadAudio_config_error_saves_nothing sid blob onProgress w :
  let '(r, w') := uploadAudio env sid blob onProgress w in
  error r = Some (bucketNotFoundMessage env) ->
  localStorage w' = localStorage w
  /\ storageUtils.getPendingUploads w' = storageUtils.getPendingUploads w
  /\ storageUtils.getAudioBlobs w' = storageUtils.getAudioBlobs w
  /\ fileReaders w' = fileReaders w.
Proof.
  destruct (decide (storage_list env (n_list (calls w)) = ListOk)) as [Hl|Hl].
  - rewrite (uploadAudio_connected _ _ _ _ Hl).
    pose proof (attemptUpload_config_storage sid blob onProgress 0
                  (log EvList (bump ChList w))) as H.
    destruct (attemptUpload env sid blob 0 onProgress (log EvList (bump ChList w)))
      as [r w'].
    intros He. destruct (H He) as [Hls Hfr]. simpl in Hls, Hfr.
    unfold storageUtils.getPendingUploads, storageUtils.getAudioBlobs.
    rewrite Hls. repeat split. exact Hfr.
  - rewrite (uploadAudio_disconnected _ _ _ _ Hl).
    intros He. exfalso. apply (inj Some) in He.
    exact (bucketNotFoundMessage_not_unreachable He).
Qed.

(** *** Progress reports *)

Lemma milestones_between attempts succeeded :
  Forall (fun v => 10 <= v <= 100) (milestones attempts succeeded).
Proof.
  unfold milestones. apply Forall_app. split.
  - induction attempts; simpl; constructor; [lia|assumption].
  - destruct succeeded; repeat constructor; lia.
Qed.

Lemma milestones_sorted attempts succeeded :
  StronglySorted le (milestones attempts succeeded).
Proof.
  induction attempts as [|n IH].
  - destruct succeeded; repeat constructor.
  - change (milestones (S n) succeeded) with (10 :: milestones n succeeded).
    constructor; [exact IH|].
    eapply Forall_impl; [apply milestones_between|]. simpl. intros v Hv. lia.
Qed.

Lemma milestones_last attempts :
  last (milestones attempts true) = Some 100.
Proof. unfold milestones. now rewrite (last_app _ [60; 100]). Qed.

Lemma attemptUpload_progress sid blob onProgress retryCount w :
  let '(r, w') := attemptUpload env sid blob retryCount onProgress w in
  exists evs attempts,
    trace w' = trace w ++ evs /\
    progressValues evs =
      if onProgress then milestones attempts (success r) else [].
Proof.
  revert retryCount w.
  apply (attemptUpload_ind env sid blob onProgress
           (fun _ w rw' => let '(r, w') := rw' in
              exists evs attempts,
                trace w' = trace w ++ evs /\
                progressValues evs =
                  if onProgress then milestones attempts (success r) else [])).
  - intros retryCount w Hok.
    destruct (tryUpload_ok env sid blob onProgress w Hok)
      as (r & w1 & Htry & Hs & _ & _ & _ & _ & _ & _ & evs & Htr & Hpv & _).
    rewrite (attemptUpload_success env _ _ retryCount _ _ _ _ Htry).
    exists evs, 1. split; [exact Htr|]. rewrite Hpv, Hs. reflexivity.
  - intros retryCount w e Hr Hb. rewrite (attemptUpload_config env _ _ _ _ _ _ Hr Hb).
    eexists; exists 1. split; [apply afterFailedTry_trace|].
    destruct onProgress; reflexivity.
  - intros retryCount w e Hr Hb Hlt w2.
    destruct (attemptUpload env sid blob (retryCount + 1) onProgress w2) as [r w'].
    intros (evs & attempts & Htr & Hpv).
    exists ((reported onProgress 10 ++ [EvUpload (filePathOf sid) (fileOf blob)])
              ++ [EvSleep (retryDelay * (retryCount + 1))] ++ evs), (S attempts).
    split.
    + rewrite Htr. subst w2. unfold log at 1. cbn [trace].
      rewrite afterFailedTry_trace. now rewrite <- !app_assoc.
    + rewrite !progressValues_app, Hpv. destruct onProgress; reflexivity.
  - intros retryCount w e Hr Hb Hge.
    rewrite (attemptUpload_exhausted env _ _ _ _ _ _ Hr Hb Hge).
    eexists; exists 1. split.
    + rewrite addPendingUpload_trace. apply afterFailedTry_trace.
    + destruct onProgress; reflexivity.
Qed.

(** C9: the values one call of [uploadAudio] hands to the progress callback
    never decrease, lie between 0 and 100, and end with 100 when the call
    reports [success = true]. *)
Theorem uploadAudio_progress_monotone sid blob onProgress w :
  let '(r, w') := uploadAudio env sid blob onProgress w in
  let values := progressValues (since w w') in
  StronglySorted le values
  /\ Forall (fun v => 0 <= v <= 100) values
  /\ (success r = true -> onProgress = true -> last values = Some 100).
Proof.
  destruct (decide (storage_list env (n_list (calls w)) = ListOk)) as [Hl|Hl].
  - rewrite (uploadAudio_connected _ _ _ _ Hl).
    pose proof (attemptUpload_progress sid blob onProgress 0
                  (log EvList (bump ChList w))) as H.
    destruct (attemptUpload env sid blob 0 onProgress (log EvList (bump ChList w)))
      as [r w'].
    destruct H as (evs & attempts & Htr & Hpv). simpl in Htr.
    rewrite <- app_assoc in Htr. rewrite (since_app _ _ _ Htr).
    cbn zeta. change (progressValues ([EvList] ++ evs)) with (progressValues evs).
    rewrite Hpv. destruct onProgress.
    + split; [apply milestones_sorted|]. split.
      * eapply Forall_impl; [apply milestones_between|]. simpl. intros v Hv. lia.
      * intros Hs _. rewrite Hs. apply milestones_last.
    + split; [constructor|]. split; [constructor|]. discriminate.
  - rewrite (uploadAudio_disconnected _ _ _ _ Hl).
    rewrite (since_app w _ [EvList]) by reflexivity.
    simpl. split; [constructor|]. split; [constructor|]. discriminate.
Qed.

(** *** Transcription never fails the upload *)

Lemma attemptUpload_transfer sid blob onProgress retryCount w :
  let '(r, w') := attemptUpload env sid blob retryCount onProgress w in
  n_upload (calls w) < n_upload (calls w')
  /\ (transferSucceeded env w w' <-> success r = true)
  /\ (success r = true -> transcriberFails env (n_gemini (calls w)) ->
      transcript r = Some EmptyString).
Proof.
  revert retryCount w.
  apply (attemptUpload_ind env sid blob onProgress
           (fun _ w rw' => let '(r, w') := rw' in
              n_upload (calls w) < n_upload (calls w')
              /\ (transferSucceeded env w w' <-> success r = true)
              /\ (success r = true -> transcriberFails env (n_gemini (calls w)) ->
                  transcript r = Some EmptyString))).
  - intros retryCount w Hok.
    destruct (tryUpload_ok env sid blob onProgress w Hok)
      as (r & w1 & Htry & Hs & _ & Ht & _ & _ & Hnu & _).
    rewrite (attemptUpload_success env _ _ retryCount _ _ _ _ Htry).
    split; [lia|]. split; [|now intros _].
    split; [now intros _|]. intros _. exists (n_upload (calls w)). split; [lia|exact Hok].
  - intros retryCount w e Hr Hb. rewrite (attemptUpload_config env _ _ _ _ _ _ Hr Hb).
    unfold transferSucceeded.
    rewrite afterFailedTry_calls. simpl. split; [lia|]. split; [|discriminate].
    split; [|discriminate]. intros (n & Hn & Hok).
    assert (n = n_upload (calls w)) as -> by lia. congruence.
  - intros retryCount w e Hr Hb Hlt w2.
    destruct (attemptUpload env sid blob (retryCount + 1) onProgress w2) as [r w'].
    assert (Hc : calls w2 = incr ChUpload (calls w)).
    { subst w2. unfold log. cbn [calls]. apply afterFailedTry_calls. }
    clearbody w2. unfold transferSucceeded. rewrite Hc. simpl. intros (Hlt' & Hiff & Ht).
    split; [lia|]. split; [|exact Ht].
    rewrite <- Hiff. split; intros (n & Hn & Hok); exists n; (split; [|exact Hok]).
    + destruct (decide (n = n_upload (calls w))) as [->|Hne]; [congruence|]. lia.
    + lia.
  - intros retryCount w e Hr Hb Hge.
    rewrite (attemptUpload_exhausted env _ _ _ _ _ _ Hr Hb Hge).
    unfold transferSucceeded.
    rewrite addPendingUpload_calls, afterFailedTry_calls. simpl.
    split; [lia|]. split; [|discriminate].
    split; [|discriminate]. intros (n & Hn & Hok).
    assert (n = n_upload (calls w)) as -> by lia. congruence.
Qed.

(** C6: a call of [uploadAudio] reports [success = true] exactly when one of
    its transfers got through, whatever the transcriber does; and when the
    transcription step fails (it throws, answers with a response that is not
    [ok] or not JSON, or has no API key), the transcript is the empty
    string. *)
Theorem uploadAudio_transcription_failure_is_not_failure sid blob onProgress w :
  let '(r, w') := uploadAudio env sid blob onProgress w in
  (transferSucceeded env w w' <-> success r = true)
  /\ (transferSucceeded env w w' -> transcriberFails env (n_gemini (calls w)) ->
      success r = true /\ transcript r = Some EmptyString).
Proof.
  destruct (decide (storage_list env (n_list (calls w)) = ListOk)) as [Hl|Hl].
  - rewrite (uploadAudio_connected _ _ _ _ Hl).
    pose proof (attemptUpload_transfer sid blob onProgress 0
                  (log EvList (bump ChList w))) as H.
    destruct (attemptUpload env sid blob 0 onProgress (log EvList (bump ChList w)))
      as [r w'].
    destruct H as (_ & Hiff & Ht). split; [exact Hiff|].
    intros Hs Hf. apply Hiff in Hs. split; [exact Hs|]. now apply Ht.
  - rewrite (uploadAudio_disconnected _ _ _ _ Hl).
    assert (Hno : ~ transferSucceeded env w
               (snd (storageUtils.addPendingUpload env sid blob (log EvList (bump ChList w))))).
    { intros (n & Hn & _). simpl in Hn. lia. }
    split; [split; [tauto|discriminate]|tauto].
Qed.

(** *** The configuration error stops the attempts *)

Lemma includes_prefix needle hay :
  String.prefix needle hay = true -> includes needle hay = true.
Proof. intros H. destruct hay; cbn [includes]; rewrite H; reflexivity. Qed.

Lemma prefix_app s t : String.prefix s (s +:+ t) = true.
Proof.
  induction s as [|c s IH]; simpl; [now destruct t|].
  destruct (ascii_dec c c); [exact IH|congruence].
Qed.

Lemma includes_app_r needle a b :
  includes needle b = true -> includes needle (a +:+ b) = true.
Proof.
  intros H. induction a as [|c a IH]; [exact H|].
  change (String c a +:+ b) with (String c (a +:+ b)). cbn [includes].
  rewrite IH. apply orb_true_r.
Qed.

Lemma bucketNotFoundMessage_names_bucket :
  includes (STORAGE_BUCKET env) (bucketNotFoundMessage env) = true.
Proof.
  unfold bucketNotFoundMessage.
  apply includes_app_r, includes_app_r, includes_prefix, prefix_app.
Qed.

Lemma last_app_cons {A} (l1 l2 : list A) (x : A) :
  last l2 = Some x -> last (l1 ++ l2) = Some x.
Proof.
  intros H. destruct l2 as [|y l2]; [discriminate|].
  rewrite last_app, H. reflexivity.
Qed.

Lemma attemptUpload_bucket_not_found sid blob onProgress retryCount w :
  let '(r, w') := attemptUpload env sid blob retryCount onProgress w in
  forall n e,
    n_upload (calls w) <= n < n_upload (calls w') ->
    storage_upload env n = UploadFails e ->
    isBucketNotFound (errorMessage e) = true ->
    n_upload (calls w') = S n
    /\ r = {| success := false; transcript := None; audioUrl := None;
              error := Some (bucketNotFoundMessage env) |}
    /\ exists evs, trace w' = trace w ++ evs /\
         last evs = Some (EvUpload (filePathOf sid) (fileOf blob)).
Proof.
  revert retryCount w.
  apply (attemptUpload_ind env sid blob onProgress
           (fun _ w rw' => let '(r, w') := rw' in
              forall n e,
                n_upload (calls w) <= n < n_upload (calls w') ->
                storage_upload env n = UploadFails e ->
                isBucketNotFound (errorMessage e) = true ->
                n_upload (calls w') = S n
                /\ r = {| success := false; transcript := None; audioUrl := None;
                          error := Some (bucketNotFoundMessage env) |}
                /\ exists evs, trace w' = trace w ++ evs /\
                     last evs = Some (EvUpload (filePathOf sid) (fileOf blob)))).
  - intros retryCount w Hok.
    destruct (tryUpload_ok env sid blob onProgress w Hok)
      as (r & w1 & Htry & _ & _ & _ & _ & _ & Hnu & _).
    rewrite (attemptUpload_success env _ _ retryCount _ _ _ _ Htry).
    intros n e Hn Hf _. assert (n = n_upload (calls w)) as -> by lia. congruence.
  - intros retryCount w e Hr Hb. rewrite (attemptUpload_config env _ _ _ _ _ _ Hr Hb).
    rewrite afterFailedTry_calls. simpl. intros n e' Hn _ _.
    split; [lia|]. split; [reflexivity|].
    eexists. split; [apply afterFailedTry_trace|].
    now apply last_app_cons.
  - intros retryCount w e Hr Hb Hlt w2.
    destruct (attemptUpload env sid blob (retryCount + 1) onProgress w2) as [r w'].
    assert (Hc : calls w2 = incr ChUpload (calls w)).
    { subst w2. unfold log. cbn [calls]. apply afterFailedTry_calls. }
    assert (Htr : trace w2 = trace w ++
              (reported onProgress 10 ++ [EvUpload (filePathOf sid) (fileOf blob)])
              ++ [EvSleep (retryDelay * (retryCount + 1))]).
    { subst w2. unfold log. cbn [trace]. rewrite afterFailedTry_trace.
      now rewrite <- !app_assoc. }
    clearbody w2. rewrite Hc, Htr. simpl. intros IH n e' Hn Hf Hb'.
    destruct (decide (n = n_upload (calls w))) as [->|Hne]; [congruence|].
    destruct (IH n e' ltac:(lia) Hf Hb') as (Hlast & Hres & evs & Hevs & Hl).
    split; [exact Hlast|]. split; [exact Hres|].
    eexists. split; [rewrite Hevs, <- app_assoc; reflexivity|].
    now apply last_app_cons.
  - intros retryCount w e Hr Hb Hge.
    rewrite (attemptUpload_exhausted env _ _ _ _ _ _ Hr Hb Hge).
    rewrite addPendingUpload_calls, afterFailedTry_calls. simpl.
    intros n e' Hn Hf Hb'. assert (n = n_upload (calls w)) as -> by lia. congruence.
Qed.

(** C5: when a transfer made by [uploadAudio] fails with an error whose
    message contains "bucket not found" (in any letter case), that transfer
    is the call's last one, the call returns right after it, with no wait,
    and the outcome is [success = false] with the configuration message,
    which names the bucket. *)
Theorem uploadAudio_bucket_not_found_short_circuits sid blob onProgress w n e :
  let '(r, w') := uploadAudio env sid blob onProgress w in
  n_upload (calls w) <= n < n_upload (calls w') ->
  storage_upload env n = UploadFails e ->
  isBucketNotFound (errorMessage e) = true ->
  n_upload (calls w') = S n
  /\ last (since w w') = Some (EvUpload (filePathOf sid) (fileOf blob))
  /\ success r = false
  /\ error r = Some (bucketNotFoundMessage env)
  /\ includes (STORAGE_BUCKET env) (bucketNotFoundMessage env) = true.
Proof.
  destruct (decide (storage_list env (n_list (calls w)) = ListOk)) as [Hl|Hl].
  - rewrite (uploadAudio_connected _ _ _ _ Hl).
    pose proof (attemptUpload_bucket_not_found sid blob onProgress 0
                  (log EvList (bump ChList w))) as H.
    destruct (attemptUpload env sid blob 0 onProgress (log EvList (bump ChList w)))
      as [r w'].
    intros Hn Hf Hb. destruct (H n e Hn Hf Hb) as (Hlast & -> & evs & Htr & Hl').
    simpl in Htr. rewrite <- app_assoc in Htr. rewrite (since_app _ _ _ Htr).
    split; [exact Hlast|]. split; [now apply last_app_cons|].
    split; [reflexivity|]. split; [reflexivity|].
    apply bucketNotFoundMessage_names_bucket.
  - rewrite (uploadAudio_disconnected _ _ _ _ Hl).
    rewrite addPendingUpload_calls. simpl. lia.
Qed.

(** *** Retries and their waits *)

Lemma retry_world sid blob onProgress ms w :
  let w1 := log (EvSleep ms) (afterFailedTry sid blob onProgress w) in
  localStorage w1 = localStorage w
  /\ fileReaders w1 = fileReaders w
  /\ calls w1 = incr ChUpload (calls w).
Proof.
  unfold log. cbn [localStorage fileReaders calls].
  destruct (afterFailedTry_storage sid blob onProgress w) as [-> ->].
  now rewrite afterFailedTry_calls.
Qed.




End Upload.

(** ** [retryPendingUploads] *)

Section Retry.
Context (env : Env).

Import UploadService.

Lemma uploadAudio_ok sid blob onProgress w :
  storage_list env (n_list (calls w)) = ListOk ->
  storage_upload env (n_upload (calls w)) = UploadOk ->
  exists r w',
    uploadAudio env sid blob onProgress w = (r, w') /\
    success r = true /\
    queuedIds w' = filter (fun i => i <> sid) (queuedIds w) /\
    storageUtils.getAudioBlobs w' = storageUtils.getAudioBlobs w /\
    n_list (calls w') = S (n_list (calls w)) /\
    n_upload (calls w') = S (n_upload (calls w)).
Proof.
  intros Hl Hu. rewrite (uploadAudio_connected env _ _ _ _ Hl).
  destruct (tryUpload_ok env sid blob onProgress (log EvList (bump ChList w)) Hu)
    as (r & w1 & Htry & Hs & _ & _ & Hls & _ & Hnu & Hnl & _).
  exists r, w1. rewrite (attemptUpload_success env _ _ 0 _ _ _ _ Htry).
  split; [reflexivity|]. split; [exact Hs|].
  split; [|split; [|split; [exact Hnl|exact Hnu]]].
  - rewrite <- queuedIds_remove. unfold queuedIds, storageUtils.getPendingUploads.
    now rewrite Hls.
  - unfold storageUtils.getAudioBlobs. now rewrite Hls.
Qed.

Lemma getAudioBlob_read sid w :
  storageUtils.getAudioBlob env sid w =
  (match storageUtils.getAudioBlobs w !! sid with
   | None => None
   | Some base64 =>
       if decide (base64 = EmptyString) then None else Some (fetch_dataURL env base64)
   end, w).
Proof.
  unfold storageUtils.getAudioBlob. run.
  destruct (storageUtils.getAudioBlobs w !! sid) as [base64|]; [|reflexivity].
  destruct (decide (base64 = EmptyString)); reflexivity.
Qed.

Lemma retryEach_all_succeed onProgress pending :
  forall w,
    (forall i, i < length pending ->
       storage_list env (n_list (calls w) + i) = ListOk /\
       storage_upload env (n_upload (calls w) + i) = UploadOk) ->
    (forall u, u ∈ pending ->
       is_Some (fst (storageUtils.getAudioBlob env (sessionId u) w))) ->
    queuedIds (snd (retryEach env onProgress pending w)) =
      filter (fun i => i ∉ (sessionId <$> pending)) (queuedIds w).
Proof.
  induction pending as [|u rest IH]; intros w Hok Hblob.
  - simpl. symmetry. apply filter_all. intros i _. apply not_elem_of_nil.
  - cbn [retryEach]. unfold mbind, Async_bind.
    set (w1 := snd ((if onProgress
                     then effect (log (EvStatus (sessionId u) "retrying"))
                     else mret ()) w)).
    assert (Hw1 : storageUtils.getAudioBlobs w1 = storageUtils.getAudioBlobs w
                  /\ queuedIds w1 = queuedIds w /\ calls w1 = calls w).
    { subst w1. destruct onProgress; repeat split. }
    destruct Hw1 as (Hb1 & Hq1 & Hc1).
    replace ((if onProgress
              then effect (log (EvStatus (sessionId u) "retrying"))
              else mret ()) w) with (tt, w1)
      by (subst w1; destruct onProgress; reflexivity).
    rewrite getAudioBlob_read, Hb1.
    pose proof (Hblob u ltac:(left)) as Hsome.
    rewrite getAudioBlob_read in Hsome. cbn [fst] in Hsome.
    destruct Hsome as [blob Hsome]. rewrite Hsome.
    destruct (Hok 0 ltac:(simpl; lia)) as [Hl0 Hu0].
    rewrite Nat.add_0_r in Hl0, Hu0. rewrite <- Hc1 in Hl0, Hu0.
    destruct (uploadAudio_ok (sessionId u) blob false w1 Hl0 Hu0)
      as (r & w2 & Hrun & Hs & Hq2 & Hb2 & Hnl & Hnu).
    rewrite Hrun, Hs.
    set (w3 := snd ((if onProgress
                     then effect (log (EvStatus (sessionId u) "success"))
                     else mret ()) w2)).
    assert (Hw3 : storageUtils.getAudioBlobs w3 = storageUtils.getAudioBlobs w2
                  /\ queuedIds w3 = queuedIds w2 /\ calls w3 = calls w2).
    { subst w3. destruct onProgress; repeat split. }
    destruct Hw3 as (Hb3 & Hq3 & Hc3).
    replace ((if onProgress
              then effect (log (EvStatus (sessionId u) "success"))
              else mret ()) w2) with (tt, w3)
      by (subst w3; destruct onProgress; reflexivity).
    clearbody w1 w3.
    rewrite IH.
    + rewrite Hq3, Hq2, Hq1, list_filter_filter. apply list_filter_iff.
      intros i. rewrite fmap_cons, not_elem_of_cons. tauto.
    + intros i Hi. rewrite Hc3, Hnl, Hnu, Hc1.
      destruct (Hok (S i) ltac:(simpl; lia)) as [Hl Hu].
      rewrite <- Nat.add_succ_comm in Hl, Hu. now split.
    + intros u' Hu'. rewrite getAudioBlob_read, Hb3, Hb2, Hb1.
      pose proof (Hblob u' ltac:(now right)) as H'.
      now rewrite getAudioBlob_read in H'.
Qed.

(** C8: when the blob of every queued entry can be read from the cache and
    the probe and the transfer of every entry succeed, the queue is empty
    after [retryPendingUploads]. *)
Theorem retryPendingUploads_empties_queue onProgress w :
  (forall u, u ∈ storageUtils.getPendingUploads w ->
     is_Some (fst (storageUtils.getAudioBlob env (sessionId u) w))) ->
  (forall i, i < length (storageUtils.getPendingUploads w) ->
     storage_list env (n_list (calls w) + i) = ListOk /\
     storage_upload env (n_upload (calls w) + i) = UploadOk) ->
  storageUtils.getPendingUploads (snd (retryPendingUploads env onProgress w)) = [].
Proof.
  intros Hblob Hok. unfold retryPendingUploads. run.
  apply (fmap_nil_inv sessionId). fold (queuedIds (snd (retryEach env onProgress
    (storageUtils.getPendingUploads w) w))).
  rewrite (retryEach_all_succeed onProgress _ w Hok Hblob).
  apply filter_none. intros i Hi Hn. exact (Hn Hi).
Qed.

End Retry.

(** ** Deleting a customer *)

Section DeleteCustomer.
Context (env : Env).

Lemma forEach_skips {A} (f : A -> Async unit) (l : list A) w :
  (forall x, x ∈ l -> forall w0, f x w0 = (tt, w0)) ->
  forEach f l w = (tt, w).
Proof.
  induction l as [|x l IH]; intros Hskip; [reflexivity|].
  cbn [forEach]. unfold mbind, Async_bind.
  rewrite (Hskip x) by left. apply IH. intros y Hy. apply Hskip. now right.
Qed.

Lemma remaining_sessions cid (l : list ChatSession) :
  forall s, s ∈ filter (fun s => customerId s <> cid) l -> customerId s <> cid.
Proof. intros s Hs. now apply list_elem_of_filter in Hs as [Hne _]. Qed.

Ltac skip_blobs :=
  rewrite forEach_skips;
  [ | let s := fresh "s" in let Hs := fresh "Hs" in
      intros s Hs ?; apply remaining_sessions in Hs;
      destruct (decide (customerId s = _)); [contradiction|reflexivity] ].

(** The handler never reaches [deleteAudioBlob]: it walks the sessions left
    after the customer's own were filtered out. *)
Lemma handleDeleteCustomer_keeps_blobs st cid w :
  rm_audio_blobs (localStorage (snd (App.handleDeleteCustomer env st cid w))) =
  rm_audio_blobs (localStorage w).
Proof.
  unfold App.handleDeleteCustomer, confirm, db.deleteSessionsByCustomer,
    db.deleteCustomer. run.
  destruct (window_confirm env (n_confirm (calls w))); [|reflexivity].
  simpl.
  destruct (sessions_delete_eq env (n_deleteSessions (calls w))); simpl;
    [destruct (customers_delete_eq env (n_deleteCustomer (calls w)))|];
    simpl; skip_blobs; reflexivity.
Qed.

(** The record store sees the sessions' deletion first, and the customer's
    only once that one has succeeded. *)
Lemma handleDeleteCustomer_order st cid w :
  window_confirm env (n_confirm (calls w)) = true ->
  let w' := snd (App.handleDeleteCustomer env st cid w) in
  since w w' =
    match sessions_delete_eq env (n_deleteSessions (calls w)) with
    | DbOk => [EvConfirm; EvDeleteSessionsByCustomer cid; EvDeleteCustomer cid]
    | DbError _ => [EvConfirm; EvDeleteSessionsByCustomer cid]
    end.
Proof.
  intros Hyes. apply since_app.
  unfold App.handleDeleteCustomer, confirm, db.deleteSessionsByCustomer,
    db.deleteCustomer. run. rewrite Hyes. simpl.
  destruct (sessions_delete_eq env (n_deleteSessions (calls w))); simpl;
    [destruct (customers_delete_eq env (n_deleteCustomer (calls w)))|];
    simpl; skip_blobs; simpl; rewrite <- ?app_assoc; reflexivity.
Qed.

(** The other copy of the component asks for the customer's deletion
    first. *)
Lemma handleDeleteCustomer_local_auth_order st cid w :
  window_confirm env (n_confirm (calls w)) = true ->
  let w' := snd (AppLocalAuth.handleDeleteCustomer env st cid w) in
  since w w' =
    match customers_delete_eq env (n_deleteCustomer (calls w)) with
    | DbOk => [EvConfirm; EvDeleteCustomer cid; EvDeleteSessionsByCustomer cid]
    | DbError _ => [EvConfirm; EvDeleteCustomer cid]
    end.
Proof.
  intros Hyes. apply since_app.
  unfold AppLocalAuth.handleDeleteCustomer, confirm, db.deleteSessionsByCustomer,
    db.deleteCustomer. run. rewrite Hyes. simpl.
  destruct (customers_delete_eq env (n_deleteCustomer (calls w))); simpl;
    [destruct (sessions_delete_eq env (n_deleteSessions (calls w)))|];
    simpl; skip_blobs; simpl; rewrite <- ?app_assoc; reflexivity.
Qed.

End DeleteCustomer.

(** C2, on a customer with two sessions whose recordings are cached: the
    record store is asked to delete the sessions and then the customer, the
    two sessions leave the component's state, and both cached recordings are
    still in [localStorage] afterwards. *)
Theorem handleDeleteCustomer_two_sessions :
  let '(st', w') :=
    App.handleDeleteCustomer onlineEnv appWithTwoSessions "customer_1" worldWithTwoBlobs in
  customers st' = [] /\ sessions st' = []
  /\ trace w' = [EvConfirm; EvDeleteSessionsByCustomer "customer_1";
                 EvDeleteCustomer "customer_1"]
  /\ storageUtils.getSessions w' = []
  /\ storageUtils.getAudioBlobs w' !! "customer_1_1001" = Some "data:audio/webm;base64,UkkA"
  /\ storageUtils.getAudioBlobs w' !! "customer_1_1002" = Some "data:audio/webm;base64,UkkB".
Proof. vm_compute. repeat split. Qed.

(** ** The theorems at concrete inputs *)

Lemma pending_queue_append_and_filter_witness :
  atMostOnePerSession freshWorld
  /\ atMostOnePerSession
       (snd (storageUtils.removePendingUpload "s1"
               (snd (storageUtils.addPendingUpload onlineEnv "s1" blob1 freshWorld)))).
Proof.
  assert (H0 : atMostOnePerSession freshWorld) by apply NoDup_nil_2.
  split; [exact H0|].
  apply (pending_queue_append_and_filter onlineEnv "s1" blob1).
  apply (pending_queue_append_and_filter onlineEnv "s1" blob1 freshWorld).
  split; [exact H0|]. apply not_elem_of_nil.
Defined.

Lemma uploadAudio_unreachable_witness :
  storage_list offlineEnv (n_list (calls freshWorld)) <> ListOk
  /\ let '(r, w') := UploadService.uploadAudio offlineEnv "s1" blob1 true freshWorld in
     success r = false
     /\ queuedIds w' = ["s1"]%string
     /\ n_upload (calls w') = 0.
Proof.
  split; [simpl; discriminate|].
  generalize (uploadAudio_unreachable offlineEnv "s1" blob1 true freshWorld).
  vm_compute. intros H.
  specialize (H ltac:(discriminate)). destruct H as (Hs & _ & _ & _ & _ & Hn).
  repeat split.
Defined.


Lemma uploadAudio_bucket_not_found_short_circuits_witness :
  let '(r, w') := UploadService.uploadAudio misconfiguredEnv "s1" blob1 true freshWorld in
  n_upload (calls w') = 1
  /\ success r = false
  /\ sleeps (since freshWorld w') = [].
Proof.
  generalize (uploadAudio_bucket_not_found_short_circuits misconfiguredEnv "s1" blob1
                true freshWorld 0 (ErrorObject "Bucket not found")).
  vm_compute. intros H.
  destruct (H (conj (le_n 0) (le_n 1)) eq_refl eq_refl) as (Hn & _ & Hs & _).
  repeat split.
Defined.

Lemma uploadAudio_transcription_failure_is_not_failure_witness :
  let '(r, w') := UploadService.uploadAudio throwingTranscriberEnv "s1" blob1 true freshWorld in
  success r = true /\ transcript r = Some EmptyString.
Proof.
  pose proof (uploadAudio_transcription_failure_is_not_failure
                throwingTranscriberEnv "s1" blob1 true freshWorld) as H.
  destruct (UploadService.uploadAudio throwingTranscriberEnv "s1" blob1 true freshWorld)
    as [r w'] eqn:E.
  destruct H as [_ H]. apply H.
  - exists 0. vm_compute in E. injection E as <- <-. vm_compute.
    split; [split; constructor|reflexivity].
  - right. right. left. reflexivity.
Defined.

Lemma uploadAudio_success_clears_queue_witness :
  let '(r, w') :=
    UploadService.uploadAudio onlineEnv "customer_1_1001" blob1 true worldWithTwoBlobs in
  success r = true /\ queuedIds w' = ["customer_1_1002"]%string.
Proof.
  generalize (uploadAudio_success_clears_queue onlineEnv "customer_1_1001" blob1 true
                worldWithTwoBlobs).
  vm_compute. intros H. split; [reflexivity|]. exact (proj2 (H eq_refl)).
Defined.

Lemma retryPendingUploads_empties_queue_witness :
  length (storageUtils.getPendingUploads worldWithTwoBlobs) = 2
  /\ storageUtils.getPendingUploads
       (snd (UploadService.retryPendingUploads onlineEnv true worldWithTwoBlobs)) = [].
Proof.
  split; [reflexivity|].
  apply (retryPendingUploads_empties_queue onlineEnv true worldWithTwoBlobs).
  - intros u Hu. apply list_elem_of_In in Hu. simpl in Hu.
    destruct Hu as [<-|[<-|[]]]; eexists; vm_compute; reflexivity.
  - intros i _. split; reflexivity.
Defined.

Lemma uploadAudio_progress_monotone_witness :
  let '(r, w') := UploadService.uploadAudio onlineEnv "s1" blob1 true freshWorld in
  progressValues (since freshWorld w') = [10; 60; 100]
  /\ last (progressValues (since freshWorld w')) = Some 100.
Proof.
  generalize (uploadAudio_progress_monotone onlineEnv "s1" blob1 true freshWorld).
  vm_compute. intros (_ & _ & H). split; [reflexivity|]. exact (H eq_refl eq_refl).
Defined.

Lemma uploadAudio_config_error_saves_nothing_witness :
  let '(r, w') :=
    UploadService.uploadAudio misconfiguredEnv "customer_1_1001" blob1 true worldWithTwoBlobs in
  error r = Some (UploadService.bucketNotFoundMessage misconfiguredEnv)
  /\ localStorage w' = localStorage worldWithTwoBlobs
  /\ fileReaders w' = [].
Proof.
  pose proof (uploadAudio_config_error_saves_nothing misconfiguredEnv "customer_1_1001"
                blob1 true worldWithTwoBlobs) as H.
  destruct (UploadService.uploadAudio misconfiguredEnv "customer_1_1001" blob1 true
              worldWithTwoBlobs) as [r w'] eqn:E.
  assert (He : error r = Some (UploadService.bucketNotFoundMessage misconfiguredEnv)).
  { vm_compute in E. injection E as <- _. reflexivity. }
  destruct (H He) as (Hls & _ & _ & Hfr). repeat split; assumption.
Defined.

(** * Further properties of the code *)

(** ** The blob cache of [storage.ts] *)

Section Cache.
Context (env : Env).

Lemma getAudioBlobs_loaded sid blob w :
  storageUtils.getAudioBlobs (saveAudioBlob_onloadend env sid blob w) =
  <[sid := FileReader_readAsDataURL env blob]> (storageUtils.getAudioBlobs w).
Proof. reflexivity. Qed.

(** The read started by [saveAudioBlob], once it is the oldest in flight,
    ends with the handler's write. *)
Lemma onloadend_saveAudioBlob sid blob w :
  fileReaders w = [] ->
  localStorage (storageUtils.onloadend env (storageUtils.saveAudioBlob sid blob w)) =
  localStorage (saveAudioBlob_onloadend env sid blob w).
Proof.
  intros H. unfold storageUtils.onloadend, storageUtils.saveAudioBlob. simpl.
  rewrite H. reflexivity.
Qed.

(** X1: once the read of a blob saved for a session has ended (the session
    id being no inherited property name), and given
    that the browser reads a data URL back into the blob it was made from,
    [getAudioBlob] returns that blob for the session and what it returned
    before for every other session; the customers, the sessions and the
    queue in [localStorage] are as before. *)
Theorem cache_store_then_retrieve sid blob w :
  sid ∉ objectPrototypeNames ->
  FileReader_readAsDataURL env blob <> EmptyString ->
  fetch_dataURL env (FileReader_readAsDataURL env blob) = blob ->
  let w' := saveAudioBlob_onloadend env sid blob w in
  fst (storageUtils.getAudioBlob env sid w') = Some blob
  /\ (forall sid', sid' <> sid ->
        fst (storageUtils.getAudioBlob env sid' w') =
        fst (storageUtils.getAudioBlob env sid' w))
  /\ storageUtils.getCustomers w' = storageUtils.getCustomers w
  /\ storageUtils.getSessions w' = storageUtils.getSessions w
  /\ storageUtils.getPendingUploads w' = storageUtils.getPendingUploads w.
Proof.
  intros _ Hne Hfetch w'. split; [|split; [|repeat split]].
  - rewrite getAudioBlob_read. subst w'. rewrite getAudioBlobs_loaded.
    rewrite lookup_insert_eq. cbn [fst].
    destruct (decide (FileReader_readAsDataURL env blob = EmptyString));
      [contradiction|]. now rewrite Hfetch.
  - intros sid' Hsid. rewrite !getAudioBlob_read. subst w'.
    rewrite getAudioBlobs_loaded, lookup_insert_ne by congruence. reflexivity.
Qed.

(** X2: after [deleteAudioBlob], [getAudioBlob] answers [null] for that
    session (its id being no inherited property name), whether or not a blob
    was cached, and is unchanged for every
    other session; the queue keeps its entries. *)
Theorem cache_delete_then_retrieve sid w :
  sid ∉ objectPrototypeNames ->
  let w' := snd (storageUtils.deleteAudioBlob sid w) in
  fst (storageUtils.getAudioBlob env sid w') = None
  /\ (forall sid', sid' <> sid ->
        fst (storageUtils.getAudioBlob env sid' w') =
        fst (storageUtils.getAudioBlob env sid' w))
  /\ storageUtils.getPendingUploads w' = storageUtils.getPendingUploads w.
Proof.
  intros _ w'.
  assert (Hb : storageUtils.getAudioBlobs w' = delete sid (storageUtils.getAudioBlobs w))
    by reflexivity.
  split; [|split; [|reflexivity]].
  - rewrite getAudioBlob_read, Hb, lookup_delete_eq. reflexivity.
  - intros sid' Hsid. rewrite !getAudioBlob_read, Hb.
    rewrite lookup_delete_ne by congruence. reflexivity.
Qed.

(** X3: of two reads for one session, the one that ends last decides what
    is cached; reads for different sessions can end in either order (the
    session ids being no inherited property names). *)
Theorem cache_last_load_wins sid1 sid2 blob1 blob2 w :
  sid1 ∉ objectPrototypeNames ->
  sid2 ∉ objectPrototypeNames ->
  storageUtils.getAudioBlobs
    (saveAudioBlob_onloadend env sid1 blob2 (saveAudioBlob_onloadend env sid1 blob1 w)) =
  storageUtils.getAudioBlobs (saveAudioBlob_onloadend env sid1 blob2 w)
  /\ (sid1 <> sid2 ->
      storageUtils.getAudioBlobs
        (saveAudioBlob_onloadend env sid2 blob2 (saveAudioBlob_onloadend env sid1 blob1 w)) =
      storageUtils.getAudioBlobs
        (saveAudioBlob_onloadend env sid1 blob1 (saveAudioBlob_onloadend env sid2 blob2 w))).
Proof.
  intros _ _. rewrite !getAudioBlobs_loaded. split.
  - apply insert_insert_eq.
  - intros Hne. now apply insert_insert_ne.
Qed.

End Cache.

(** ** What one call of [uploadAudio] does *)

Section Calls.
Context (env : Env).

Import UploadService.

#[local] Arguments filePathOf : simpl never.
#[local] Arguments fileOf : simpl never.
#[local] Arguments trim : simpl never.
#[local] Arguments join : simpl never.

Lemma uploadsIn_app (a b : list Event) :
  uploadsIn (a ++ b) = uploadsIn a ++ uploadsIn b.
Proof.
  induction a as [|e a IH]; simpl; [reflexivity|].
  destruct e; simpl; rewrite ?IH; reflexivity.
Qed.

Lemma transcriptionsIn_app (a b : list Event) :
  transcriptionsIn (a ++ b) = transcriptionsIn a ++ transcriptionsIn b.
Proof.
  induction a as [|e a IH]; simpl; [reflexivity|].
  destruct e; simpl; rewrite ?IH; reflexivity.
Qed.

Lemma statusesIn_app (a b : list Event) :
  statusesIn (a ++ b) = statusesIn a ++ statusesIn b.
Proof.
  induction a as [|e a IH]; simpl; [reflexivity|].
  destruct e; simpl; rewrite ?IH; reflexivity.
Qed.

Lemma generateTranscript_events blob w :
  exists w1,
    generateTranscriptWithGemini env blob w =
      (transcriptOf env (n_gemini (calls w)), w1) /\
    trace w1 = trace w ++ transcriberEvents env blob /\
    n_gemini (calls w1) = n_gemini (calls w) + length (transcriberEvents env blob) /\
    n_upload (calls w1) = n_upload (calls w) /\
    n_list (calls w1) = n_list (calls w) /\
    n_signedUrl (calls w1) = n_signedUrl (calls w).
Proof.
  unfold generateTranscriptWithGemini, geminiApiKey, transcriptOf, transcriberEvents.
  destruct (VITE_GEMINI_API_KEY env) as [[|c key]|].
  - run. exists w. rewrite app_nil_r. repeat split; lia.
  - run.
    destruct (gemini_generateContent env (n_gemini (calls w)));
      eexists; (split; [reflexivity|]); simpl; repeat split; lia.
  - run. exists w. rewrite app_nil_r. repeat split; lia.
Qed.

Lemma tryUpload_ok_events sid blob onProgress w :
  storage_upload env (n_upload (calls w)) = UploadOk ->
  exists w1,
    tryUpload env sid blob onProgress w =
      (inr {| success := true;
              transcript := Some (transcriptOf env (n_gemini (calls w)));
              audioUrl := Some (resolvedUrl env sid (n_signedUrl (calls w)));
              error := None |}, w1) /\
    trace w1 = trace w ++ successEvents env sid blob onProgress /\
    n_upload (calls w1) = S (n_upload (calls w)) /\
    n_list (calls w1) = n_list (calls w).
Proof.
  intros H. unfold tryUpload, report, storageUtils.removePendingUpload,
    resolvedUrl, successEvents. run.
  destruct onProgress; simpl; rewrite H;
    destruct (decide (storage_getPublicUrl env (filePathOf sid) = EmptyString)) as [Hp|Hp];
    simpl; try destruct (storage_createSignedUrl env (n_signedUrl (calls w)));
    simpl.
  all: match goal with
       | |- context [generateTranscriptWithGemini env ?b ?W] =>
           destruct (generateTranscript_events b W)
             as (w2 & Heq & Htr & _ & Hnu & Hnl & _)
       end.
  all: rewrite Heq; simpl in *.
  all: eexists; split; [reflexivity|]; simpl.
  all: rewrite ?Htr, ?Hnu, ?Hnl.
  all: split; [rewrite <- ?app_assoc; simpl; rewrite ?app_nil_r; reflexivity|].
  all: split; reflexivity.
Qed.

Lemma failed_try_readings sid blob onProgress :
  let evs := reported onProgress 10 ++ [EvUpload (filePathOf sid) (fileOf blob)] in
  uploadsIn evs = [(filePathOf sid, fileOf blob)]
  /\ transcriptionsIn evs = [] /\ statusesIn evs = [].
Proof. destruct onProgress; repeat split. Qed.

Lemma transcriberEvents_readings blob :
  uploadsIn (transcriberEvents env blob) = []
  /\ statusesIn (transcriberEvents env blob) = [].
Proof.
  unfold transcriberEvents.
  destruct (VITE_GEMINI_API_KEY env) as [[|c key]|]; split; reflexivity.
Qed.

Lemma successEvents_readings sid blob onProgress :
  uploadsIn (successEvents env sid blob onProgress) = [(filePathOf sid, fileOf blob)]
  /\ transcriptionsIn (successEvents env sid blob onProgress) =
       transcriptionsIn (transcriberEvents env blob)
  /\ statusesIn (successEvents env sid blob onProgress) = [].
Proof.
  unfold successEvents.
  destruct (transcriberEvents_readings blob) as [Hu Hs].
  rewrite !uploadsIn_app, !transcriptionsIn_app, !statusesIn_app, Hu, Hs.
  destruct onProgress;
    destruct (decide (storage_getPublicUrl env (filePathOf sid) = EmptyString));
    simpl; rewrite ?app_nil_r; repeat split.
Qed.

(** What the attempts of one call leave in the log and in their result. *)
Lemma attemptUpload_log sid blob onProgress retryCount w :
  let '(r, w') := attemptUpload env sid blob retryCount onProgress w in
  n_upload (calls w) < n_upload (calls w')
  /\ n_list (calls w') = n_list (calls w)
  /\ (exists evs,
        trace w' = trace w ++ evs /\
        uploadsIn evs =
          replicate (n_upload (calls w') - n_upload (calls w))
                    (filePathOf sid, fileOf blob) /\
        transcriptionsIn evs =
          (if success r then transcriptionsIn (transcriberEvents env blob) else []) /\
        statusesIn evs = [])
  /\ (success r = true ->
      r = {| success := true;
             transcript := Some (transcriptOf env (n_gemini (calls w)));
             audioUrl := Some (resolvedUrl env sid (n_signedUrl (calls w)));
             error := None |}).
Proof.
  revert retryCount w.
  apply (attemptUpload_ind env sid blob onProgress
           (fun _ w rw' => let '(r, w') := rw' in
              n_upload (calls w) < n_upload (calls w')
              /\ n_list (calls w') = n_list (calls w)
              /\ (exists evs,
                    trace w' = trace w ++ evs /\
                    uploadsIn evs =
                      replicate (n_upload (calls w') - n_upload (calls w))
                                (filePathOf sid, fileOf blob) /\
                    transcriptionsIn evs =
                      (if success r then transcriptionsIn (transcriberEvents env blob)
                       else []) /\
                    statusesIn evs = [])
              /\ (success r = true ->
                  r = {| success := true;
                         transcript := Some (transcriptOf env (n_gemini (calls w)));
                         audioUrl := Some (resolvedUrl env sid (n_signedUrl (calls w)));
                         error := None |}))).
  - intros retryCount w Hok.
    destruct (tryUpload_ok_events sid blob onProgress w Hok)
      as (w1 & Htry & Htr & Hnu & Hnl).
    rewrite (attemptUpload_success env _ _ retryCount _ _ _ _ Htry).
    destruct (successEvents_readings sid blob onProgress) as (Hu & Ht & Hs).
    split; [lia|]. split; [exact Hnl|]. split; [|reflexivity].
    eexists. split; [exact Htr|]. rewrite Hu, Ht, Hs, Hnu.
    replace (S (n_upload (calls w)) - n_upload (calls w)) with 1 by lia.
    repeat split.
  - intros retryCount w e Hr Hb. rewrite (attemptUpload_config env _ _ _ _ _ _ Hr Hb).
    destruct (failed_try_readings sid blob onProgress) as (Hu & Ht & Hs).
    rewrite afterFailedTry_calls. cbn [n_upload n_list incr success].
    split; [lia|]. split; [reflexivity|]. split; [|discriminate].
    eexists. split; [apply afterFailedTry_trace|]. rewrite Hu, Ht, Hs.
    replace (S (n_upload (calls w)) - n_upload (calls w)) with 1 by lia.
    repeat split.
  - intros retryCount w e Hr Hb Hlt w2.
    destruct (attemptUpload env sid blob (retryCount + 1) onProgress w2) as [r w'].
    assert (Hc : calls w2 = incr ChUpload (calls w)).
    { subst w2. unfold log. cbn [calls]. apply afterFailedTry_calls. }
    assert (Htr : trace w2 = trace w ++
              (reported onProgress 10 ++ [EvUpload (filePathOf sid) (fileOf blob)])
              ++ [EvSleep (retryDelay * (retryCount + 1))]).
    { subst w2. unfold log. cbn [trace]. rewrite afterFailedTry_trace.
      now rewrite <- !app_assoc. }
    clearbody w2. rewrite Hc, Htr. cbn [n_upload n_list n_gemini n_signedUrl incr].
    intros (Hlt' & Hnl & (evs & Hevs & Hu & Ht & Hs) & Hres).
    split; [lia|]. split; [exact Hnl|]. split; [|exact Hres].
    eexists. split; [rewrite Hevs, <- app_assoc; reflexivity|].
    rewrite !uploadsIn_app, !transcriptionsIn_app, !statusesIn_app, Hu, Ht, Hs.
    replace (n_upload (calls w') - n_upload (calls w))
      with (S (n_upload (calls w') - S (n_upload (calls w)))) by lia.
    destruct onProgress; repeat split.
  - intros retryCount w e Hr Hb Hge.
    rewrite (attemptUpload_exhausted env _ _ _ _ _ _ Hr Hb Hge).
    destruct (failed_try_readings sid blob onProgress) as (Hu & Ht & Hs).
    rewrite addPendingUpload_calls, afterFailedTry_calls.
    cbn [n_upload n_list incr success].
    split; [lia|]. split; [reflexivity|]. split; [|discriminate].
    eexists. split; [rewrite addPendingUpload_trace; apply afterFailedTry_trace|].
    rewrite Hu, Ht, Hs.
    replace (S (n_upload (calls w)) - n_upload (calls w)) with 1 by lia.
    repeat split.
Qed.

(** The same for [uploadAudio], probe included. *)
Lemma uploadAudio_log sid blob onProgress w :
  let '(r, w') := uploadAudio env sid blob onProgress w in
  n_upload (calls w) <= n_upload (calls w')
  /\ n_list (calls w') = S (n_list (calls w))
  /\ uploadsIn (since w w') =
       replicate (n_upload (calls w') - n_upload (calls w))
                 (filePathOf sid, fileOf blob)
  /\ transcriptionsIn (since w w') =
       (if success r then transcriptionsIn (transcriberEvents env blob) else [])
  /\ statusesIn (since w w') = []
  /\ (success r = true ->
      r = {| success := true;
             transcript := Some (transcriptOf env (n_gemini (calls w)));
             audioUrl := Some (resolvedUrl env sid (n_signedUrl (calls w)));
             error := None |}).
Proof.
  destruct (decide (storage_list env (n_list (calls w)) = ListOk)) as [Hl|Hl].
  - rewrite (uploadAudio_connected env _ _ _ _ Hl).
    pose proof (attemptUpload_log sid blob onProgress 0 (log EvList (bump ChList w))) as H.
    destruct (attemptUpload env sid blob 0 onProgress (log EvList (bump ChList w)))
      as [r w'].
    destruct H as (Hlt & Hnl & (evs & Htr & Hu & Ht & Hs) & Hres).
    cbn [log bump calls trace n_upload n_list n_gemini n_signedUrl incr] in *.
    rewrite <- app_assoc in Htr. rewrite (since_app _ _ _ Htr).
    split; [lia|]. split; [exact Hnl|].
    rewrite uploadsIn_app, transcriptionsIn_app, statusesIn_app, Hu, Ht, Hs.
    repeat split. exact Hres.
  - rewrite (uploadAudio_disconnected env _ _ _ _ Hl).
    rewrite (since_app w _ [EvList]) by reflexivity.
    rewrite addPendingUpload_calls. cbn [log bump calls n_upload n_list incr success].
    rewrite Nat.sub_diag. repeat split; try lia.
Qed.

End Calls.

Section CallProperties.
Context (env : Env).

Import UploadService.

Lemma string_length_app (s t : string) :
  String.length (s +:+ t) = String.length s + String.length t.
Proof.
  induction s as [|c s IH]; [reflexivity|].
  change (String c s +:+ t) with (String c (s +:+ t)). simpl. now rewrite IH.
Qed.

Lemma string_app_inj_r (s1 s2 t : string) :
  s1 +:+ t = s2 +:+ t -> s1 = s2.
Proof.
  revert s2. induction s1 as [|c s1 IH]; intros [|d s2] H.
  - reflexivity.
  - exfalso. apply (f_equal String.length) in H.
    change (String d s2 +:+ t) with (String d (s2 +:+ t)) in H.
    change (EmptyString +:+ t) with t in H. simpl in H.
    rewrite string_length_app in H. lia.
  - exfalso. apply (f_equal String.length) in H.
    change (String c s1 +:+ t) with (String c (s1 +:+ t)) in H.
    change (EmptyString +:+ t) with t in H. simpl in H.
    rewrite string_length_app in H. lia.
  - change (String c s1 +:+ t) with (String c (s1 +:+ t)) in H.
    change (String d s2 +:+ t) with (String d (s2 +:+ t)) in H.
    injection H as -> H. f_equal. now apply IH.
Qed.

Lemma filePathOf_inj (sid1 sid2 : string) :
  filePathOf sid1 = filePathOf sid2 -> sid1 = sid2.
Proof.
  unfold filePathOf. intros H.
  apply (inj (String.append "recordings/")) in H.
  now apply string_app_inj_r in H.
Qed.

(** X4: every transfer one call of [uploadAudio] asks for, retries
    included, writes the same object: the blob's bytes, typed [audio/webm]
    when the blob has no type, at the path [recordings/<sessionId>/recording.webm];
    and two session ids never share a path. *)
Theorem uploadAudio_same_object sid blob onProgress w :
  let '(r, w') := uploadAudio env sid blob onProgress w in
  uploadsIn (since w w') =
    replicate (n_upload (calls w') - n_upload (calls w))
      ("recordings/" +:+ sid +:+ "/recording.webm",
       {| blob_bytes := blob_bytes blob;
          blob_type := if decide (blob_type blob = EmptyString)
                       then "audio/webm" else blob_type blob |})
  /\ forall sid', filePathOf sid' = filePathOf sid -> sid' = sid.
Proof.
  pose proof (uploadAudio_log env sid blob onProgress w) as H.
  destruct (uploadAudio env sid blob onProgress w) as [r w'].
  destruct H as (_ & _ & Hu & _). split; [exact Hu|].
  intros sid'. apply filePathOf_inj.
Qed.

(** X5: one call of [uploadAudio] sends the recording to the transcriber
    at most once, and only in a call that ends in success; without an API
    key it never sends it. What is sent is the blob's bytes under the blob's
    type ([audio/webm] when it has none). *)
Theorem uploadAudio_transcriber_requests sid blob onProgress w :
  let '(r, w') := uploadAudio env sid blob onProgress w in
  let sent := transcriptionsIn (since w w') in
  length sent <= 1
  /\ (success r = false -> sent = [])
  /\ (VITE_GEMINI_API_KEY env = None \/ VITE_GEMINI_API_KEY env = Some EmptyString ->
      sent = [])
  /\ (forall mime data, (mime, data) ∈ sent ->
        data = blob_bytes blob /\
        mime = if decide (blob_type blob = EmptyString)
               then "audio/webm"%string else blob_type blob).
Proof.
  pose proof (uploadAudio_log env sid blob onProgress w) as H.
  destruct (uploadAudio env sid blob onProgress w) as [r w'].
  destruct H as (_ & _ & _ & Ht & _). cbn zeta. rewrite Ht.
  unfold transcriberEvents.
  destruct (success r); destruct (VITE_GEMINI_API_KEY env) as [[|c key]|]; simpl.
  all: split; [lia|]; split; [try discriminate; reflexivity|].
  all: split; [intros [?|?]; try discriminate; reflexivity|].
  all: intros mime data Hin.
  all: try (apply elem_of_nil in Hin; contradiction).
  apply list_elem_of_singleton in Hin. injection Hin as -> ->. now split.
Qed.


End CallProperties.

Section Outcome.
Context (env : Env).

Import UploadService.

Lemma queuedIds_storage w1 w2 :
  localStorage w1 = localStorage w2 -> queuedIds w1 = queuedIds w2.
Proof. intros H. unfold queuedIds, storageUtils.getPendingUploads. now rewrite H. Qed.

Lemma addPendingUpload_other_keys sid blob w :
  let w' := snd (storageUtils.addPendingUpload env sid blob w) in
  rm_customers (localStorage w') = rm_customers (localStorage w)
  /\ rm_chat_sessions (localStorage w') = rm_chat_sessions (localStorage w)
  /\ rm_audio_blobs (localStorage w') = rm_audio_blobs (localStorage w).
Proof. repeat split. Qed.

(** The ways a run of attempts can end, and what each leaves in
    [localStorage]. *)
Lemma attemptUpload_outcome sid blob onProgress retryCount w :
  let '(r, w') := attemptUpload env sid blob retryCount onProgress w in
  (rm_customers (localStorage w') = rm_customers (localStorage w)
   /\ rm_chat_sessions (localStorage w') = rm_chat_sessions (localStorage w)
   /\ rm_audio_blobs (localStorage w') = rm_audio_blobs (localStorage w))
  /\ ((success r = true /\ error r = None)
      \/ (success r = false /\ transcript r = None /\ audioUrl r = None
          /\ ((error r = Some (bucketNotFoundMessage env)
               /\ localStorage w' = localStorage w
               /\ fileReaders w' = fileReaders w)
              \/ ((exists message, error r = Some (exhaustedMessage message))
                  /\ queuedIds w' = queuedIds w ++ [sid]
                  /\ fileReaders w' = fileReaders w ++ [(sid, blob)])))).
Proof.
  revert retryCount w.
  apply (attemptUpload_ind env sid blob onProgress
           (fun _ w rw' => let '(r, w') := rw' in
              (rm_customers (localStorage w') = rm_customers (localStorage w)
               /\ rm_chat_sessions (localStorage w') = rm_chat_sessions (localStorage w)
               /\ rm_audio_blobs (localStorage w') = rm_audio_blobs (localStorage w))
              /\ ((success r = true /\ error r = None)
                  \/ (success r = false /\ transcript r = None /\ audioUrl r = None
                      /\ ((error r = Some (bucketNotFoundMessage env)
                           /\ localStorage w' = localStorage w
                           /\ fileReaders w' = fileReaders w)
                          \/ ((exists message, error r = Some (exhaustedMessage message))
                              /\ queuedIds w' = queuedIds w ++ [sid]
                              /\ fileReaders w' = fileReaders w ++ [(sid, blob)])))))).
  - intros retryCount w Hok.
    destruct (tryUpload_ok env sid blob onProgress w Hok)
      as (r & w1 & Htry & Hs & He & _ & Hls & _).
    rewrite (attemptUpload_success env _ _ retryCount _ _ _ _ Htry).
    rewrite Hls. split; [repeat split|]. left. now split.
  - intros retryCount w e Hr Hb. rewrite (attemptUpload_config env _ _ _ _ _ _ Hr Hb).
    destruct (afterFailedTry_storage sid blob onProgress w) as [Hls Hfr].
    rewrite Hls. split; [repeat split|]. right.
    split; [reflexivity|]. split; [reflexivity|]. split; [reflexivity|].
    left. repeat split. exact Hfr.
  - intros retryCount w e Hr Hb Hlt w2.
    destruct (attemptUpload env sid blob (retryCount + 1) onProgress w2) as [r w'].
    destruct (retry_world sid blob onProgress (retryDelay * (retryCount + 1)) w)
      as (Hls & Hfr & _).
    fold w2 in Hls, Hfr. clearbody w2.
    rewrite (queuedIds_storage _ _ Hls), Hls, Hfr. tauto.
  - intros retryCount w e Hr Hb Hge.
    rewrite (attemptUpload_exhausted env _ _ _ _ _ _ Hr Hb Hge).
    destruct (afterFailedTry_storage sid blob onProgress w) as [Hls Hfr].
    destruct (addPendingUpload_other_keys sid blob (afterFailedTry sid blob onProgress w))
      as (H1 & H2 & H3).
    rewrite H1, H2, H3, Hls. split; [repeat split|]. right.
    split; [reflexivity|]. split; [reflexivity|]. split; [reflexivity|].
    right. split; [eexists; reflexivity|].
    rewrite queuedIds_add, addPendingUpload_fileReaders, Hfr.
    now rewrite (queuedIds_storage _ _ Hls).
Qed.

(** X7: [uploadAudio] writes no key of [localStorage] but the queue's: the
    cached customers, the cached sessions and the cached blobs are the same
    after the call as before, whatever its outcome; in particular a success
    leaves the cached copy of the recording in place. *)
Theorem uploadAudio_writes_only_the_queue sid blob onProgress w :
  let '(r, w') := uploadAudio env sid blob onProgress w in
  storageUtils.getCustomers w' = storageUtils.getCustomers w
  /\ storageUtils.getSessions w' = storageUtils.getSessions w
  /\ storageUtils.getAudioBlobs w' = storageUtils.getAudioBlobs w
  /\ forall sid', fst (storageUtils.getAudioBlob env sid' w') =
                  fst (storageUtils.getAudioBlob env sid' w).
Proof.
  assert (Hgoal : forall w' : World,
             rm_customers (localStorage w') = rm_customers (localStorage w) ->
             rm_chat_sessions (localStorage w') = rm_chat_sessions (localStorage w) ->
             rm_audio_blobs (localStorage w') = rm_audio_blobs (localStorage w) ->
             storageUtils.getCustomers w' = storageUtils.getCustomers w
             /\ storageUtils.getSessions w' = storageUtils.getSessions w
             /\ storageUtils.getAudioBlobs w' = storageUtils.getAudioBlobs w
             /\ forall sid', fst (storageUtils.getAudioBlob env sid' w') =
                             fst (storageUtils.getAudioBlob env sid' w)).
  { intros w' H1 H2 H3.
    assert (Hb : storageUtils.getAudioBlobs w' = storageUtils.getAudioBlobs w)
      by (unfold storageUtils.getAudioBlobs; now rewrite H3).
    unfold storageUtils.getCustomers, storageUtils.getSessions. rewrite H1, H2.
    repeat split; [exact Hb|]. intros sid'. now rewrite !getAudioBlob_read, Hb. }
  destruct (decide (storage_list env (n_list (calls w)) = ListOk)) as [Hl|Hl].
  - rewrite (uploadAudio_connected env _ _ _ _ Hl).
    pose proof (attemptUpload_outcome sid blob onProgress 0 (log EvList (bump ChList w))) as H.
    destruct (attemptUpload env sid blob 0 onProgress (log EvList (bump ChList w)))
      as [r w'].
    destruct H as [(H1 & H2 & H3) _]. now apply Hgoal.
  - rewrite (uploadAudio_disconnected env _ _ _ _ Hl). now apply Hgoal.
Qed.

(** X8: the outcome of [uploadAudio] has [error] unset exactly when
    [success] is true; a failure carries no transcript and no URL, and either
    it is the bucket-not-found error, with nothing written and no blob save
    started, or the queue has exactly one more entry, for this session and
    at its end, and one blob save was started for this session and blob. *)
Theorem uploadAudio_failure_is_queued_or_config sid blob onProgress w :
  let '(r, w') := uploadAudio env sid blob onProgress w in
  (success r = true <-> error r = None)
  /\ (success r = false ->
      transcript r = None /\ audioUrl r = None
      /\ ((error r = Some (bucketNotFoundMessage env)
           /\ localStorage w' = localStorage w
           /\ fileReaders w' = fileReaders w)
          \/ (error r <> Some (bucketNotFoundMessage env)
              /\ queuedIds w' = queuedIds w ++ [sid]
              /\ fileReaders w' = fileReaders w ++ [(sid, blob)]))).
Proof.
  destruct (decide (storage_list env (n_list (calls w)) = ListOk)) as [Hl|Hl].
  - rewrite (uploadAudio_connected env _ _ _ _ Hl).
    pose proof (attemptUpload_outcome sid blob onProgress 0 (log EvList (bump ChList w))) as H.
    destruct (attemptUpload env sid blob 0 onProgress (log EvList (bump ChList w)))
      as [r w'].
    destruct H as [_ [[Hs He]|(Hs & Ht & Hu & Hcase)]].
    + rewrite Hs, He. split; [tauto|discriminate].
    + rewrite Hs. split.
      * split; [discriminate|]. intros He.
        destruct Hcase as [(Hc & _)|((m & Hm) & _)]; congruence.
      * intros _. split; [exact Ht|]. split; [exact Hu|].
        destruct Hcase as [Hcfg|((m & Hm) & Hq & Hfr)]; [left; exact Hcfg|].
        right. split; [|split; [exact Hq|exact Hfr]].
        rewrite Hm. intros Heq. apply (inj Some) in Heq.
        exact (bucketNotFoundMessage_not_exhausted env _ Heq).
  - rewrite (uploadAudio_disconnected env _ _ _ _ Hl).
    cbn [success error transcript audioUrl].
    split; [split; discriminate|]. intros _.
    split; [reflexivity|]. split; [reflexivity|]. right.
    split.
    + intros Heq. apply (inj Some) in Heq.
      exact (bucketNotFoundMessage_not_unreachable env Heq).
    + rewrite queuedIds_add, addPendingUpload_fileReaders. split; reflexivity.
Qed.

End Outcome.

(** ** Passes of [retryPendingUploads] *)

Section Passes.
Context (env : Env).

Import UploadService.

Lemma filter_ext_elem {A} (P Q : A -> Prop) `{forall x, Decision (P x)}
  `{forall x, Decision (Q x)} (l : list A) :
  (forall x, x ∈ l -> P x <-> Q x) -> filter P l = filter Q l.
Proof.
  induction l as [|x l IH]; intros Hext; [reflexivity|].
  rewrite !filter_cons.
  assert (Hx : P x <-> Q x) by (apply Hext; left).
  rewrite IH by (intros y Hy; apply Hext; now right).
  destruct (decide (P x)), (decide (Q x)); tauto.
Qed.

Lemma cached_blobs w1 w2 sid :
  storageUtils.getAudioBlobs w1 = storageUtils.getAudioBlobs w2 ->
  cached env w1 sid <-> cached env w2 sid.
Proof. intros H. unfold cached. now rewrite !getAudioBlob_read, H. Qed.

Lemma retryEach_cons onProgress u rest w :
  snd (retryEach env onProgress (u :: rest) w) =
  snd (retryEach env onProgress rest (snd (retryOne env onProgress u w))).
Proof.
  cbn [retryEach]. unfold retryOne, mbind, Async_bind.
  destruct ((if onProgress
             then effect (log (EvStatus (sessionId u) "retrying"))
             else mret ()) w) as [[] w1].
  destruct (storageUtils.getAudioBlob env (sessionId u) w1) as [[blob|] w2].
  - destruct (uploadAudio env (sessionId u) blob false w2) as [r w3].
    destruct (success r);
      match goal with
      | |- context [(if onProgress then ?a else ?b) w3] =>
          destruct ((if onProgress then a else b) w3) as [[] w4]
      end; reflexivity.
  - reflexivity.
Qed.

Lemma uploadAudio_keeps_blobs sid blob onProgress w :
  storageUtils.getAudioBlobs (snd (uploadAudio env sid blob onProgress w)) =
  storageUtils.getAudioBlobs w.
Proof.
  unfold storageUtils.getAudioBlobs.
  destruct (decide (storage_list env (n_list (calls w)) = ListOk)) as [Hl|Hl].
  - rewrite (uploadAudio_connected env _ _ _ _ Hl).
    pose proof (attemptUpload_outcome env sid blob onProgress 0
                  (log EvList (bump ChList w))) as H.
    destruct (attemptUpload env sid blob 0 onProgress (log EvList (bump ChList w)))
      as [r w'].
    destruct H as [(_ & _ & H3) _]. cbn [snd]. now rewrite H3.
  - rewrite (uploadAudio_disconnected env _ _ _ _ Hl). reflexivity.
Qed.

Lemma uploadAudio_trace sid blob onProgress w :
  exists evs,
    trace (snd (uploadAudio env sid blob onProgress w)) = trace w ++ evs /\
    statusesIn evs = [].
Proof.
  destruct (decide (storage_list env (n_list (calls w)) = ListOk)) as [Hl|Hl].
  - rewrite (uploadAudio_connected env _ _ _ _ Hl).
    pose proof (attemptUpload_log env sid blob onProgress 0
                  (log EvList (bump ChList w))) as H.
    destruct (attemptUpload env sid blob 0 onProgress (log EvList (bump ChList w)))
      as [r w'].
    destruct H as (_ & _ & (evs & Htr & _ & _ & Hs) & _).
    exists ([EvList] ++ evs). split; [|exact Hs].
    cbn [snd]. rewrite Htr. cbn [log trace bump]. now rewrite <- app_assoc.
  - rewrite (uploadAudio_disconnected env _ _ _ _ Hl).
    exists [EvList]. split; reflexivity.
Qed.

Lemma getAudioBlob_logged sid e w :
  storageUtils.getAudioBlob env sid (log e w) =
  (fst (storageUtils.getAudioBlob env sid w), log e w).
Proof. now rewrite !getAudioBlob_read. Qed.

Lemma getAudioBlob_pure sid w :
  storageUtils.getAudioBlob env sid w =
  (fst (storageUtils.getAudioBlob env sid w), w).
Proof. now rewrite !getAudioBlob_read. Qed.

(** One turn for an entry whose blob is not cached. *)
Lemma retryOne_uncached onProgress u w :
  ~ cached env w (sessionId u) ->
  snd (retryOne env onProgress u w) =
  if onProgress then log (EvStatus (sessionId u) "retrying") w else w.
Proof.
  intros Hc. unfold cached in Hc.
  assert (Hn : fst (storageUtils.getAudioBlob env (sessionId u) w) = None).
  { destruct (fst (storageUtils.getAudioBlob env (sessionId u) w)); [|reflexivity].
    exfalso. apply Hc. eexists. reflexivity. }
  unfold retryOne, mbind, Async_bind.
  destruct onProgress; cbn [effect mret Async_ret].
  - rewrite getAudioBlob_logged, Hn. reflexivity.
  - rewrite getAudioBlob_pure, Hn. reflexivity.
Qed.

(** One turn for an entry whose blob is cached: a call of [uploadAudio]
    between two status reports. *)
Lemma retryOne_cached (onProgress : bool) (u : PendingUpload) (w : World) :
  cached env w (sessionId u) ->
  exists blob,
    let w1 := if onProgress then log (EvStatus (sessionId u) "retrying") w else w in
    let '(r, w2) := uploadAudio env (sessionId u) blob false w1 in
    snd (retryOne env onProgress u w) =
    if onProgress
    then log (EvStatus (sessionId u) (if success r then "success" else "failed")) w2
    else w2.
Proof.
  intros Hc. unfold cached in Hc. destruct Hc as [blob Hb]. exists blob.
  unfold retryOne, mbind, Async_bind.
  destruct onProgress; cbn [effect mret Async_ret].
  - rewrite getAudioBlob_logged, Hb.
    destruct (uploadAudio env (sessionId u) blob false
                (log (EvStatus (sessionId u) "retrying") w)) as [r w2].
    destruct (success r); reflexivity.
  - rewrite getAudioBlob_pure, Hb.
    destruct (uploadAudio env (sessionId u) blob false w) as [r w2].
    destruct (success r); reflexivity.
Qed.

Lemma retryOne_offline (onProgress : bool) (u : PendingUpload) (w : World) :
  cached env w (sessionId u) ->
  storage_list env (n_list (calls w)) <> ListOk ->
  let w' := snd (retryOne env onProgress u w) in
  queuedIds w' = queuedIds w ++ [sessionId u]
  /\ storageUtils.getAudioBlobs w' = storageUtils.getAudioBlobs w
  /\ n_upload (calls w') = n_upload (calls w)
  /\ n_list (calls w') = S (n_list (calls w))
  /\ exists evs,
       trace w' = trace w ++ evs /\
       statusesIn evs =
         if onProgress
         then [(sessionId u, "retrying"%string); (sessionId u, "failed"%string)]
         else [].
Proof.
  intros Hc Hl. destruct (retryOne_cached onProgress u w Hc) as [blob H].
  cbn zeta in H |- *.
  destruct onProgress.
  - rewrite (uploadAudio_disconnected env _ _ _
               (log (EvStatus (sessionId u) "retrying") w) Hl) in H. rewrite H.
    cbn [success].
    split; [|split; [reflexivity|split; [reflexivity|split; [reflexivity|]]]].
    + change (queuedIds (log ?e ?x)) with (queuedIds x). now rewrite queuedIds_add.
    + exists [EvStatus (sessionId u) "retrying"; EvList; EvStatus (sessionId u) "failed"].
      split; [|reflexivity].
      cbn [log trace]. rewrite addPendingUpload_trace. cbn [log trace bump].
      rewrite <- !app_assoc. reflexivity.
  - rewrite (uploadAudio_disconnected env _ _ _ _ Hl) in H. rewrite H.
    split; [|split; [reflexivity|split; [reflexivity|split; [reflexivity|]]]].
    + now rewrite queuedIds_add.
    + exists [EvList]. split; reflexivity.
Qed.

Lemma retryOne_online (onProgress : bool) (u : PendingUpload) (w : World) :
  cached env w (sessionId u) ->
  storage_list env (n_list (calls w)) = ListOk ->
  storage_upload env (n_upload (calls w)) = UploadOk ->
  let w' := snd (retryOne env onProgress u w) in
  queuedIds w' = filter (fun i => i <> sessionId u) (queuedIds w)
  /\ storageUtils.getAudioBlobs w' = storageUtils.getAudioBlobs w
  /\ n_upload (calls w') = S (n_upload (calls w))
  /\ n_list (calls w') = S (n_list (calls w))
  /\ exists evs,
       trace w' = trace w ++ evs /\
       statusesIn evs =
         if onProgress
         then [(sessionId u, "retrying"%string); (sessionId u, "success"%string)]
         else [].
Proof.
  intros Hc Hl Hu. destruct (retryOne_cached onProgress u w Hc) as [blob H].
  cbn zeta in H |- *.
  set (w1 := if onProgress then log (EvStatus (sessionId u) "retrying") w else w) in *.
  assert (Hw1 : queuedIds w1 = queuedIds w
                /\ storageUtils.getAudioBlobs w1 = storageUtils.getAudioBlobs w
                /\ calls w1 = calls w
                /\ trace w1 = trace w ++
                     (if onProgress then [EvStatus (sessionId u) "retrying"] else [])).
  { subst w1. destruct onProgress; cbn [log calls trace]; rewrite ?app_nil_r;
      repeat split. }
  destruct Hw1 as (Hq1 & Hb1 & Hc1 & Ht1). clearbody w1.
  rewrite <- Hc1 in Hl, Hu.
  destruct (uploadAudio_ok env (sessionId u) blob false w1 Hl Hu)
    as (r & w2 & Hrun & Hs & Hq2 & Hb2 & Hnl & Hnu).
  destruct (uploadAudio_trace (sessionId u) blob false w1) as (evs & Ht2 & Hst).
  rewrite Hrun in H, Ht2. cbn [snd] in Ht2. rewrite Hs in H. rewrite H.
  rewrite Hc1 in Hnl, Hnu.
  destruct onProgress; cbn [log calls trace].
  - change (queuedIds (log ?e ?x)) with (queuedIds x).
    change (storageUtils.getAudioBlobs (log ?e ?x)) with (storageUtils.getAudioBlobs x).
    rewrite Hq2, Hq1, Hb2, Hb1.
    split; [reflexivity|]. split; [reflexivity|]. split; [exact Hnu|]. split; [exact Hnl|].
    eexists. split; [rewrite Ht2, Ht1, <- !app_assoc; reflexivity|].
    rewrite !statusesIn_app, Hst. reflexivity.
  - rewrite Hq2, Hq1, Hb2, Hb1.
    split; [reflexivity|]. split; [reflexivity|]. split; [exact Hnu|]. split; [exact Hnl|].
    eexists. split; [rewrite Ht2, Ht1, <- !app_assoc; reflexivity|].
    rewrite !statusesIn_app, Hst. reflexivity.
Qed.

Lemma retryOne_skips (onProgress : bool) (u : PendingUpload) (w : World) :
  ~ cached env w (sessionId u) ->
  let w' := snd (retryOne env onProgress u w) in
  localStorage w' = localStorage w
  /\ fileReaders w' = fileReaders w
  /\ calls w' = calls w
  /\ trace w' = trace w ++
       (if onProgress then [EvStatus (sessionId u) "retrying"] else []).
Proof.
  intros Hc. cbn zeta. rewrite (retryOne_uncached onProgress u w Hc).
  destruct onProgress; cbn [log localStorage fileReaders calls trace];
    rewrite ?app_nil_r; repeat split.
Qed.

Lemma statusReports_blobs w1 w2 outcome sid :
  storageUtils.getAudioBlobs w1 = storageUtils.getAudioBlobs w2 ->
  statusReports env w1 outcome sid = statusReports env w2 outcome sid.
Proof.
  intros H. unfold statusReports.
  destruct (decide (cached env w1 sid)) as [H1|H1],
           (decide (cached env w2 sid)) as [H2|H2]; try reflexivity;
    exfalso; apply (cached_blobs w1 w2 sid H) in H1 || apply (cached_blobs w1 w2 sid H) in H2;
    contradiction.
Qed.

Lemma retryPendingUploads_loop onProgress w :
  snd (retryPendingUploads env onProgress w) =
  snd (retryEach env onProgress (storageUtils.getPendingUploads w) w).
Proof. reflexivity. Qed.

(** A pass while the store cannot be reached. *)
Lemma retryEach_offline (onProgress : bool) (pending : list PendingUpload) :
  forall w,
    (forall n, n_list (calls w) <= n -> storage_list env n <> ListOk) ->
    let w' := snd (retryEach env onProgress pending w) in
    queuedIds w' = queuedIds w ++ filter (cached env w) (sessionId <$> pending)
    /\ storageUtils.getAudioBlobs w' = storageUtils.getAudioBlobs w
    /\ n_upload (calls w') = n_upload (calls w)
    /\ n_list (calls w) <= n_list (calls w')
    /\ exists evs,
         trace w' = trace w ++ evs /\
         statusesIn evs =
           if onProgress
           then flat_map (statusReports env w "failed") (sessionId <$> pending)
           else [].
Proof.
  induction pending as [|u rest IH]; intros w Hoff; cbn zeta.
  - cbn [retryEach mret Async_ret snd fmap list_fmap]. rewrite filter_nil, !app_nil_r.
    split; [reflexivity|]. split; [reflexivity|]. split; [reflexivity|].
    split; [lia|]. exists []. rewrite app_nil_r. now destruct onProgress.
  - rewrite retryEach_cons. rewrite fmap_cons, filter_cons. cbn [flat_map].
    unfold statusReports at 1.
    destruct (decide (cached env w (sessionId u))) as [Hc|Hc].
    + destruct (retryOne_offline onProgress u w Hc (Hoff _ (le_n _)))
        as (Hq & Hb & Hnu & Hnl & evs1 & Ht1 & Hs1).
      destruct (IH (snd (retryOne env onProgress u w))) as (Hq' & Hb' & Hnu' & Hnl' & evs2 & Ht2 & Hs2).
      { intros n Hn. apply Hoff. lia. }
      rewrite Hq', Hq, Hb', Hb, Hnu', Hnu.
      split; [|split; [reflexivity|split; [reflexivity|split; [lia|]]]].
      * rewrite <- app_assoc. cbn [app]. f_equal. f_equal.
        apply list_filter_iff. intros i. now apply cached_blobs.
      * exists (evs1 ++ evs2). split; [rewrite Ht2, Ht1, app_assoc; reflexivity|].
        rewrite statusesIn_app, Hs1, Hs2. destruct onProgress; [|reflexivity].
        cbn [app]. f_equal. f_equal. apply flat_map_ext. intros i.
        now apply statusReports_blobs.
    + destruct (retryOne_skips onProgress u w Hc) as (Hls & _ & Hcs & Ht1).
      assert (Hb : storageUtils.getAudioBlobs (snd (retryOne env onProgress u w)) =
                   storageUtils.getAudioBlobs w)
        by (unfold storageUtils.getAudioBlobs; now rewrite Hls).
      destruct (IH (snd (retryOne env onProgress u w))) as (Hq' & Hb' & Hnu' & Hnl' & evs2 & Ht2 & Hs2).
      { intros n Hn. apply Hoff. rewrite Hcs in Hn. exact Hn. }
      rewrite Hq', (queuedIds_storage _ _ Hls), Hb', Hb, Hnu', Hcs.
      rewrite Hcs in Hnl'.
      split; [|split; [reflexivity|split; [reflexivity|split; [exact Hnl'|]]]].
      * f_equal. apply list_filter_iff. intros i. now apply cached_blobs.
      * eexists. split; [rewrite Ht2, Ht1, <- app_assoc; reflexivity|].
        rewrite statusesIn_app, Hs2. destruct onProgress; [|reflexivity].
        cbn [statusesIn app]. f_equal. apply flat_map_ext. intros i.
        now apply statusReports_blobs.
Qed.

(** A pass in which every probe and every transfer succeeds. *)
Lemma retryEach_online (onProgress : bool) (pending : list PendingUpload) :
  forall w,
    (forall n, n_list (calls w) <= n -> storage_list env n = ListOk) ->
    (forall n, n_upload (calls w) <= n -> storage_upload env n = UploadOk) ->
    let w' := snd (retryEach env onProgress pending w) in
    queuedIds w' =
      filter (fun i => i ∉ filter (cached env w) (sessionId <$> pending)) (queuedIds w)
    /\ storageUtils.getAudioBlobs w' = storageUtils.getAudioBlobs w
    /\ exists evs,
         trace w' = trace w ++ evs /\
         statusesIn evs =
           if onProgress
           then flat_map (statusReports env w "success") (sessionId <$> pending)
           else [].
Proof.
  induction pending as [|u rest IH]; intros w Hlist Hup; cbn zeta.
  - cbn [retryEach mret Async_ret snd fmap list_fmap]. rewrite filter_nil.
    split; [|split; [reflexivity|]].
    + symmetry. apply filter_all. intros i _. apply not_elem_of_nil.
    + exists []. rewrite app_nil_r. now destruct onProgress.
  - rewrite retryEach_cons. rewrite fmap_cons, filter_cons. cbn [flat_map].
    unfold statusReports at 1.
    destruct (decide (cached env w (sessionId u))) as [Hc|Hc].
    + destruct (retryOne_online onProgress u w Hc (Hlist _ (le_n _)) (Hup _ (le_n _)))
        as (Hq & Hb & Hnu & Hnl & evs1 & Ht1 & Hs1).
      destruct (IH (snd (retryOne env onProgress u w))) as (Hq' & Hb' & evs2 & Ht2 & Hs2).
      { intros n Hn. apply Hlist. lia. }
      { intros n Hn. apply Hup. lia. }
      rewrite Hq', Hq, Hb', Hb.
      split; [|split; [reflexivity|]].
      * rewrite list_filter_filter. apply list_filter_iff. intros i.
        rewrite not_elem_of_cons.
        rewrite (list_filter_iff (cached env (snd (retryOne env onProgress u w)))
                   (cached env w)) by (intros j; now apply cached_blobs).
        tauto.
      * exists (evs1 ++ evs2). split; [rewrite Ht2, Ht1, app_assoc; reflexivity|].
        rewrite statusesIn_app, Hs1, Hs2. destruct onProgress; [|reflexivity].
        cbn [app]. f_equal. f_equal. apply flat_map_ext. intros i.
        now apply statusReports_blobs.
    + destruct (retryOne_skips onProgress u w Hc) as (Hls & _ & Hcs & Ht1).
      assert (Hb : storageUtils.getAudioBlobs (snd (retryOne env onProgress u w)) =
                   storageUtils.getAudioBlobs w)
        by (unfold storageUtils.getAudioBlobs; now rewrite Hls).
      destruct (IH (snd (retryOne env onProgress u w))) as (Hq' & Hb' & evs2 & Ht2 & Hs2).
      { intros n Hn. apply Hlist. rewrite Hcs in Hn. exact Hn. }
      { intros n Hn. apply Hup. rewrite Hcs in Hn. exact Hn. }
      rewrite Hq', (queuedIds_storage _ _ Hls), Hb', Hb.
      split; [|split; [reflexivity|]].
      * apply list_filter_iff. intros i.
        rewrite (list_filter_iff (cached env (snd (retryOne env onProgress u w)))
                   (cached env w)) by (intros j; now apply cached_blobs).
        tauto.
      * eexists. split; [rewrite Ht2, Ht1, <- app_assoc; reflexivity|].
        rewrite statusesIn_app, Hs2. destruct onProgress; [|reflexivity].
        cbn [statusesIn app]. f_equal. apply flat_map_ext. intros i.
        now apply statusReports_blobs.
Qed.

(** A pass over entries none of which has a cached blob. *)
Lemma retryEach_uncached (onProgress : bool) (pending : list PendingUpload) :
  forall w,
    (forall u, u ∈ pending -> ~ cached env w (sessionId u)) ->
    let w' := snd (retryEach env onProgress pending w) in
    localStorage w' = localStorage w
    /\ fileReaders w' = fileReaders w
    /\ calls w' = calls w
    /\ trace w' = trace w ++
         (if onProgress
          then (fun u => EvStatus (sessionId u) "retrying") <$> pending
          else []).
Proof.
  induction pending as [|u rest IH]; intros w Hnone; cbn zeta.
  - cbn [retryEach mret Async_ret snd fmap list_fmap].
    destruct onProgress; rewrite app_nil_r; repeat split.
  - rewrite retryEach_cons.
    destruct (retryOne_skips onProgress u w (Hnone u ltac:(left)))
      as (Hls & Hfr & Hcs & Ht1).
    assert (Hb : storageUtils.getAudioBlobs (snd (retryOne env onProgress u w)) =
                 storageUtils.getAudioBlobs w)
      by (unfold storageUtils.getAudioBlobs; now rewrite Hls).
    destruct (IH (snd (retryOne env onProgress u w))) as (Hls' & Hfr' & Hcs' & Ht2).
    { intros u' Hu' Hc'. apply (Hnone u'); [now right|].
      now apply (cached_blobs _ _ _ Hb). }
    rewrite Hls', Hls, Hfr', Hfr, Hcs', Hcs, Ht2, Ht1.
    split; [reflexivity|]. split; [reflexivity|]. split; [reflexivity|].
    rewrite <- app_assoc. destruct onProgress; reflexivity.
Qed.

(** X9: a pass of [retryPendingUploads] while the store cannot be reached,
    over a queue whose session ids are no inherited property names,
    transfers nothing and enqueues again every entry whose blob is cached:
    the queue afterwards is the queue before followed by those entries'
    session ids; each such entry is reported [retrying] and then [failed],
    the others only [retrying]. *)
Theorem retryPendingUploads_offline_requeues (onProgress : bool) (w : World) :
  Forall (fun i => i ∉ objectPrototypeNames) (queuedIds w) ->
  (forall n, n_list (calls w) <= n -> storage_list env n <> ListOk) ->
  let w' := snd (retryPendingUploads env onProgress w) in
  queuedIds w' = queuedIds w ++ filter (cached env w) (queuedIds w)
  /\ n_upload (calls w') = n_upload (calls w)
  /\ statusesIn (since w w') =
       if onProgress
       then flat_map (statusReports env w "failed") (queuedIds w)
       else [].
Proof.
  intros _ Hoff. cbn zeta. rewrite retryPendingUploads_loop.
  destruct (retryEach_offline onProgress (storageUtils.getPendingUploads w) w Hoff)
    as (Hq & _ & Hnu & _ & evs & Ht & Hs).
  split; [exact Hq|]. split; [exact Hnu|].
  rewrite (since_app _ _ _ Ht). exact Hs.
Qed.

(** X10: a pass of [retryPendingUploads] in which every probe and every
    transfer succeeds, over a queue whose session ids are no inherited
    property names, removes from the queue the entries whose blob is
    cached and keeps, in order, those whose blob is not: these are reported
    [retrying] and nothing else, the others [retrying] and then
    [success]. *)
Theorem retryPendingUploads_keeps_uncached (onProgress : bool) (w : World) :
  Forall (fun i => i ∉ objectPrototypeNames) (queuedIds w) ->
  (forall n, n_list (calls w) <= n -> storage_list env n = ListOk) ->
  (forall n, n_upload (calls w) <= n -> storage_upload env n = UploadOk) ->
  let w' := snd (retryPendingUploads env onProgress w) in
  queuedIds w' = filter (fun i => ~ cached env w i) (queuedIds w)
  /\ statusesIn (since w w') =
       if onProgress
       then flat_map (statusReports env w "success") (queuedIds w)
       else [].
Proof.
  intros _ Hlist Hup. cbn zeta. rewrite retryPendingUploads_loop.
  destruct (retryEach_online onProgress (storageUtils.getPendingUploads w) w Hlist Hup)
    as (Hq & _ & evs & Ht & Hs).
  split; [|rewrite (since_app _ _ _ Ht); exact Hs].
  rewrite Hq. fold (queuedIds w). apply filter_ext_elem. intros i Hi.
  rewrite list_elem_of_filter. tauto.
Qed.

(** X11: when no queued entry has a cached blob (the queued session ids
    being no inherited property names), a pass of
    [retryPendingUploads] makes no remote call and writes nothing: it only
    reports [retrying] for each entry, in queue order. *)
Theorem retryPendingUploads_without_blobs (onProgress : bool) (w : World) :
  Forall (fun i => i ∉ objectPrototypeNames) (queuedIds w) ->
  (forall i, i ∈ queuedIds w -> ~ cached env w i) ->
  let w' := snd (retryPendingUploads env onProgress w) in
  localStorage w' = localStorage w
  /\ fileReaders w' = fileReaders w
  /\ calls w' = calls w
  /\ since w w' =
       if onProgress
       then (fun i => EvStatus i "retrying") <$> queuedIds w
       else [].
Proof.
  intros _ Hnone. cbn zeta. rewrite retryPendingUploads_loop.
  destruct (retryEach_uncached onProgress (storageUtils.getPendingUploads w) w)
    as (Hls & Hfr & Hcs & Ht).
  { intros u Hu. apply Hnone. unfold queuedIds.
    apply list_elem_of_fmap. now exists u. }
  split; [exact Hls|]. split; [exact Hfr|]. split; [exact Hcs|].
  rewrite (since_app _ _ _ Ht). destruct onProgress; [|reflexivity].
  unfold queuedIds. now rewrite <- list_fmap_compose.
Qed.

End Passes.

(** ** The recorder of [audioRecorder.ts] *)

Section RecorderFacts.
Import AudioRecorder.

Lemma consistent_step (r : t) (op : Op) : consistent r -> consistent (step r op).
Proof.
  unfold consistent. intros (H1 & H2 & H3 & H4).
  destruct op as [reply| | | |data|finalData|]; cbn [step].
  - destruct reply; cbn; repeat split; try congruence; auto.
  - unfold start. destruct (mediaRecorder r) as [[]|] eqn:E; cbn;
      rewrite ?E; repeat split; try congruence; auto.
  - unfold pause. destruct (mediaRecorder r) as [[]|] eqn:E; cbn;
      rewrite ?E; repeat split; try congruence; auto.
  - unfold resume. destruct (mediaRecorder r) as [[]|] eqn:E; cbn;
      rewrite ?E; repeat split; try congruence; auto.
  - unfold ondataavailable. destruct (0 <? length (blob_bytes data)); cbn;
      repeat split; auto.
  - unfold stop, ondataavailable.
    destruct (0 <? length (blob_bytes finalData));
      destruct (mediaRecorder r) as [[]|] eqn:E; cbn; rewrite ?E;
      repeat split; try congruence; auto.
  - cbn. repeat split; congruence.
Qed.

Lemma consistent_run (ops : list Op) : forall r, consistent r -> consistent (run ops r).
Proof.
  induction ops as [|op ops IH]; intros r Hr; [exact Hr|].
  apply IH. now apply consistent_step.
Qed.

(** X12: whatever is done to a recorder, in whatever order, [isRecording()]
    and [isPausedState()] are never both true, a paused [MediaRecorder] is
    always flagged as paused, the flag is only ever set while the
    [MediaRecorder] is paused or inactive, and a recorder that has a
    [MediaRecorder] holds a stream. *)
Theorem recorder_flags_consistent (ops : list Op) :
  let r := run ops create in
  (isRecording r = true -> isPausedState r = false)
  /\ (getState r = "paused"%string -> isPausedState r = true)
  /\ (isPausedState r = true ->
      getState r = "paused"%string \/
      (getState r = "inactive"%string /\ mediaRecorder r <> None))
  /\ (mediaRecorder r <> None -> stream r = true).
Proof.
  assert (H : consistent (run ops create)).
  { apply consistent_run. unfold consistent, create. cbn.
    repeat split; congruence. }
  cbn zeta. destruct H as (H1 & H2 & H3 & H4).
  unfold isRecording, isPausedState, getState.
  split; [|split; [|split; [|exact H4]]].
  - destruct (mediaRecorder (run ops create)) as [[]|]; try discriminate.
    intros _. now apply H1.
  - destruct (mediaRecorder (run ops create)) as [[]|]; try discriminate.
    intros _. now apply H2.
  - intros Hp. destruct (H3 Hp) as [E|E]; rewrite E.
    + now left.
    + right. split; [reflexivity|discriminate].
Qed.

Lemma concat_bytes_data (chunks : list Blob) (data : Blob) :
  concat (blob_bytes <$>
            (if 0 <? length (blob_bytes data) then chunks ++ [data] else chunks)) =
  concat (blob_bytes <$> chunks) ++ blob_bytes data.
Proof.
  destruct (0 <? length (blob_bytes data)) eqn:E.
  - rewrite fmap_app, concat_app. cbn. now rewrite app_nil_r.
  - apply Nat.ltb_ge in E. destruct (blob_bytes data); [|cbn in E; lia].
    now rewrite app_nil_r.
Qed.

Lemma ondataavailable_chunks (data : Blob) (r : t) :
  mediaRecorder (ondataavailable data r) = mediaRecorder r
  /\ concat (blob_bytes <$> audioChunks (ondataavailable data r)) =
     concat (blob_bytes <$> audioChunks r) ++ blob_bytes data.
Proof.
  rewrite <- concat_bytes_data. unfold ondataavailable.
  destruct (0 <? length (blob_bytes data)); split; reflexivity.
Qed.

(** While a take is on, the chunks are the data delivered so far. *)
Lemma take_collects (ops : list Op) :
  forall r,
    forallb duringTake ops = true ->
    (mediaRecorder r = Some recording \/ mediaRecorder r = Some paused) ->
    (mediaRecorder (run ops r) = Some recording \/
     mediaRecorder (run ops r) = Some paused)
    /\ concat (blob_bytes <$> audioChunks (run ops r)) =
       concat (blob_bytes <$> audioChunks r) ++
       concat (blob_bytes <$> delivered ops).
Proof.
  induction ops as [|op ops IH]; intros r Hops Hst.
  - cbn. split; [exact Hst|]. now rewrite app_nil_r.
  - cbn [forallb] in Hops. apply andb_true_iff in Hops as [Hop Hops].
    change (run (op :: ops) r) with (run ops (step r op)).
    destruct op as [reply| | | |data|finalData|]; try discriminate Hop; cbn [step delivered].
    + assert (start r = r) as -> by (unfold start; destruct Hst as [E|E]; now rewrite E).
      now apply IH.
    + destruct (IH (pause r) Hops) as [Hs Hc].
      { unfold pause. destruct Hst as [E|E]; rewrite E; cbn; rewrite ?E; auto. }
      split; [exact Hs|]. rewrite Hc. f_equal.
      unfold pause. destruct Hst as [E|E]; now rewrite E.
    + destruct (IH (resume r) Hops) as [Hs Hc].
      { unfold resume. destruct Hst as [E|E]; rewrite E; cbn; rewrite ?E; auto. }
      split; [exact Hs|]. rewrite Hc. f_equal.
      unfold resume. destruct Hst as [E|E]; now rewrite E.
    + destruct (ondataavailable_chunks data r) as [Hm Hd].
      destruct (IH (ondataavailable data r) Hops) as [Hs Hc].
      { now rewrite Hm. }
      split; [exact Hs|]. rewrite Hc, Hd, fmap_cons. cbn [concat].
      now rewrite <- app_assoc.
Qed.

(** X13: a take that begins with [start()] on an initialized, inactive
    recorder and ends with [stop()], with any pauses, resumes, further
    [start()] calls and deliveries of data in between, resolves to one blob
    of type [audio/webm] whose bytes are the delivered data, in the order of
    delivery, followed by the data delivered at the stop; what was buffered
    before [start()] is not in it. *)
Theorem recorder_take_in_order (r : t) (ops : list Op) (finalData : Blob) :
  mediaRecorder r = Some inactive ->
  forallb duringTake ops = true ->
  fst (stop finalData (run ops (start r))) =
  Resolved {| blob_bytes := concat (blob_bytes <$> (delivered ops ++ [finalData]));
              blob_type := "audio/webm" |}.
Proof.
  intros Hr Hops.
  destruct (take_collects ops (start r) Hops) as [Hs Hc].
  { unfold start. rewrite Hr. cbn. now left. }
  assert (Hempty : audioChunks (start r) = []) by (unfold start; now rewrite Hr).
  rewrite Hempty in Hc. cbn in Hc.
  unfold stop.
  destruct Hs as [-> | ->]; cbn [fst]; unfold concatBlobs; f_equal; f_equal.
  all: match goal with
       | |- context [ondataavailable ?d ?x] =>
           destruct (ondataavailable_chunks d x) as [_ Hd]; rewrite Hd
       end.
  all: cbn [audioChunks]; rewrite Hc, fmap_app, concat_app; cbn; now rewrite app_nil_r.
Qed.

(** X14: [stop()] does not clear the pause flag: stopped from a pause, the
    recorder reports the state [inactive] and still answers [true] to
    [isPausedState()], until the next [start()] or [cleanup()]. *)
Theorem recorder_stop_keeps_pause_flag (r : t) (finalData : Blob) :
  mediaRecorder r = Some recording ->
  let r' := snd (stop finalData (pause r)) in
  getState r' = "inactive"%string
  /\ isPausedState r' = true
  /\ isPausedState (start r') = false
  /\ isPausedState (cleanup r') = false.
Proof.
  intros Hr. unfold pause. rewrite Hr. unfold stop, ondataavailable.
  cbn [mediaRecorder snd].
  destruct (0 <? length (blob_bytes finalData)); repeat split.
Qed.

(** X15: a recorder without a [MediaRecorder] (new, cleaned up, or whose
    [initialize()] was refused the microphone) ignores [start()], [pause()]
    and [resume()], reports the state [inactive], and rejects [stop()] with
    "Recorder not initialized"; a refused [initialize()] throws "Microphone
    access denied or not available" and leaves it without one. *)
Theorem recorder_uninitialized (r : t) (finalData : Blob) :
  mediaRecorder r = None ->
  start r = r /\ pause r = r /\ resume r = r
  /\ getState r = "inactive"%string /\ isRecording r = false
  /\ stop finalData r = (Rejected "Recorder not initialized", r)
  /\ initialize StreamDenied r =
       (Some "Microphone access denied or not available"%string, r)
  /\ mediaRecorder (snd (initialize RecorderRefused r)) = None
  /\ mediaRecorder (cleanup (run [OpInitialize StreamGranted; OpStart] r)) = None.
Proof.
  intros Hr. unfold start, pause, resume, getState, isRecording, stop. rewrite Hr.
  cbn. rewrite Hr. repeat split.
Qed.

End RecorderFacts.

(** ** The handlers of the [App] component *)

Section Handlers.
Context (env : Env).


(** X17: [handleAddCustomer] appends the new customer, with the id
    [customer_<Date.now()>], to the component's list. When the insert
    succeeds it writes nothing to [localStorage], so a later load that falls
    back to [localStorage] shows the customers cached before, without the
    new one; when the insert fails it caches the whole new list. *)
Theorem handleAddCustomer_cached_only_on_failure (now : nat) (inserted : DbReply)
  (st : AppState) (customerData : CustomerData) (w : World) :
  let '(st', w') := AppHandlers.handleAddCustomer env now inserted st customerData w in
  let newCustomer :=
    {| customer_id := "customer_" +:+ pretty now;
       customer_name := data_name customerData;
       customer_email := data_email customerData;
       customer_phone := data_phone customerData;
       customer_createdAt := Date_toISOString env (n_date (calls w)) |} in
  customers st' = customers st ++ [newCustomer]
  /\ sessions st' = sessions st
  /\ (inserted = DbOk ->
      localStorage w' = localStorage w
      /\ forall dbSessions,
           customers (fst (AppHandlers.loadInitialData None dbSessions w')) =
           storageUtils.getCustomers w)
  /\ (inserted <> DbOk ->
      storageUtils.getCustomers w' = customers st ++ [newCustomer]
      /\ forall dbSessions,
           customers (fst (AppHandlers.loadInitialData None dbSessions w')) =
           customers st ++ [newCustomer]).
Proof.
  unfold AppHandlers.handleAddCustomer, AppHandlers.loadInitialData. run.
  destruct inserted; cbn; repeat split; try congruence; try discriminate.
Qed.

(** X18: [handleDeleteCustomer] does nothing when the user declines (no
    call to the record store, no write); when the user confirms, the
    component drops every customer of that id and every session of that
    customer and caches the remaining sessions, whatever the record store
    answers; the remaining customers are cached only when a delete fails. *)
Theorem handleDeleteCustomer_optimistic (st : AppState) (cid : string) (w : World) :
  let '(st', w') := App.handleDeleteCustomer env st cid w in
  (window_confirm env (n_confirm (calls w)) = false ->
     st' = st /\ localStorage w' = localStorage w /\ since w w' = [EvConfirm])
  /\ (window_confirm env (n_confirm (calls w)) = true ->
      customers st' = filter (fun c => customer_id c <> cid) (customers st)
      /\ sessions st' = filter (fun s => customerId s <> cid) (sessions st)
      /\ storageUtils.getSessions w' =
           json_session <$> filter (fun s => customerId s <> cid) (sessions st)
      /\ (sessions_delete_eq env (n_deleteSessions (calls w)) = DbOk ->
          customers_delete_eq env (n_deleteCustomer (calls w)) = DbOk ->
          rm_customers (localStorage w') = rm_customers (localStorage w))
      /\ (sessions_delete_eq env (n_deleteSessions (calls w)) <> DbOk \/
          customers_delete_eq env (n_deleteCustomer (calls w)) <> DbOk ->
          storageUtils.getCustomers w' =
            filter (fun c => customer_id c <> cid) (customers st))).
Proof.
  unfold App.handleDeleteCustomer, confirm, db.deleteSessionsByCustomer,
    db.deleteCustomer. run.
  destruct (window_confirm env (n_confirm (calls w))).
  - simpl.
    destruct (sessions_delete_eq env (n_deleteSessions (calls w))); simpl;
      [destruct (customers_delete_eq env (n_deleteCustomer (calls w)))|]; simpl;
      (rewrite forEach_skips;
       [ | intros s Hs ?; apply remaining_sessions in Hs;
           destruct (decide (customerId s = cid)); [contradiction|reflexivity] ]);
      cbn; (split; [discriminate|]); intros _; repeat split;
      try congruence; try tauto.
    all: intros [H|H]; congruence.
  - cbn. split; [|discriminate]. intros _. repeat split.
    apply since_app. reflexivity.
Qed.

End Handlers.

(** ** The [ChatInterface] component's upload handler *)

Section Upload.
Context (env : Env).

Import UploadService.

Lemma orElse_nonempty (a : option string) (b : string) :
  b <> EmptyString -> orElse a b <> EmptyString.
Proof. destruct a as [[|c rest]|]; cbn; intros Hb; (exact Hb || discriminate). Qed.

(** The three ways [uploadAudio] ends, with what each leaves in the queue. *)
Lemma uploadAudio_cases sid blob onProgress w :
  let '(r, w') := uploadAudio env sid blob onProgress w in
  (success r = true
   /\ queuedIds w' = filter (fun i => i <> sid) (queuedIds w)
   /\ fileReaders w' = fileReaders w)
  \/ (success r = false
      /\ error r = Some (bucketNotFoundMessage env)
      /\ localStorage w' = localStorage w
      /\ fileReaders w' = fileReaders w)
  \/ (success r = false
      /\ (exists m, error r = Some m /\ orElse (Some m) "Upload failed" = m
                    /\ m <> bucketNotFoundMessage env)
      /\ queuedIds w' = queuedIds w ++ [sid]
      /\ fileReaders w' = fileReaders w ++ [(sid, blob)]).
Proof.
  destruct (decide (storage_list env (n_list (calls w)) = ListOk)) as [Hl|Hl].
  - rewrite (uploadAudio_connected env _ _ _ _ Hl).
    pose proof (attemptUpload_outcome env sid blob onProgress 0
                  (log EvList (bump ChList w))) as H.
    pose proof (attemptUpload_success_storage env sid blob onProgress 0
                  (log EvList (bump ChList w))) as Hs.
    destruct (attemptUpload env sid blob 0 onProgress (log EvList (bump ChList w)))
      as [r w'].
    destruct H as [_ [[Hok He]|(Hko & Ht & Hu & Hcase)]].
    + left. destruct (Hs Hok) as [Hls Hfr]. split; [exact Hok|]. split; [|exact Hfr].
      rewrite (queuedIds_storage _ _ Hls), queuedIds_saved, sessionId_filter.
      reflexivity.
    + right. destruct Hcase as [(Hc & Hls & Hfr)|((m & Hm) & Hq & Hfr)].
      * left. now repeat split.
      * right. split; [exact Hko|]. split; [|split; [exact Hq|exact Hfr]].
        exists (exhaustedMessage m). split; [exact Hm|]. split; [reflexivity|].
        apply bucketNotFoundMessage_not_exhausted.
  - rewrite (uploadAudio_disconnected env _ _ _ _ Hl).
    cbn [success error transcript audioUrl]. right. right.
    split; [reflexivity|]. split.
    + eexists. split; [reflexivity|]. split; [reflexivity|].
      apply bucketNotFoundMessage_not_unreachable.
    + rewrite queuedIds_add, addPendingUpload_fileReaders. split; reflexivity.
Qed.

(** X19: with a recording at hand, [handleUpload] always hands a session to
    [onSessionComplete], under the id [<customer id>_<Date.now()>] and
    carrying the recording; its status is [uploaded] or [pending], never
    [failed]. An uploaded session is not in the retry queue. A pending one
    keeps the component's object URL and the placeholder transcript, and is
    the queue's last entry, except after the bucket-not-found error, where
    it is pending although nothing was queued for it. *)
Theorem handleUpload_session (now : nat) (customer : Customer) (blob : Blob)
  (objectUrl : string) (recordingTime : nat) (w : World) :
  let sid := customer_id customer +:+ "_" +:+ pretty now in
  let '(out, w') :=
    ChatInterface.handleUpload env now customer (Some blob) objectUrl recordingTime w in
  exists session message,
    out = Some (session, message)
    /\ id session = sid
    /\ customerId session = customer_id customer
    /\ customerName session = customer_name customer
    /\ duration session = recordingTime
    /\ session_audioBlob session = Some (LiveBlob blob)
    /\ ((status session = uploaded
         /\ message = "Upload successful!"%string
         /\ (objectUrl <> EmptyString -> session_audioUrl session <> Some EmptyString)
         /\ (sid ∉ queuedIds w')
         /\ fileReaders w' = fileReaders w)
        \/ (status session = pending
            /\ session_transcript session = "Pending upload..."%string
            /\ session_audioUrl session = Some objectUrl
            /\ ((message = bucketNotFoundMessage env
                 /\ queuedIds w' = queuedIds w
                 /\ fileReaders w' = fileReaders w)
                \/ (message <> bucketNotFoundMessage env
                    /\ queuedIds w' = queuedIds w ++ [sid]
                    /\ fileReaders w' = fileReaders w ++ [(sid, blob)])))).
Proof.
  intros sid. unfold ChatInterface.handleUpload. fold sid.
  unfold mbind, mret, Async_bind, Async_ret, effect, ask.
  pose proof (uploadAudio_cases sid blob true w) as H.
  destruct (uploadAudio env sid blob true w) as [r w1].
  destruct H as [(Hs & Hq & Hfr)|[(Hs & He & Hls & Hfr)|(Hs & (m & He & Hm & Hne) & Hq & Hfr)]];
    rewrite Hs; cbn [fst snd].
  - eexists _, _. split; [reflexivity|]. cbn [id customerId customerName duration
      session_audioBlob status session_audioUrl session_transcript].
    do 5 (split; [reflexivity|]). left.
    split; [reflexivity|]. split; [reflexivity|]. split.
    + intros Hne Heq. apply (inj Some) in Heq. revert Heq. now apply orElse_nonempty.
    + split; [|exact Hfr].
      change (queuedIds (bump ChDate w1)) with (queuedIds w1). rewrite Hq.
      intros Hin. apply list_elem_of_filter in Hin as [Hne _]. now apply Hne.
  - eexists _, _. split; [reflexivity|]. cbn [id customerId customerName duration
      session_audioBlob status session_audioUrl session_transcript].
    do 5 (split; [reflexivity|]). right.
    do 3 (split; [reflexivity|]). left. rewrite He.
    split; [reflexivity|]. split; [|exact Hfr].
    apply queuedIds_storage. exact Hls.
  - eexists _, _. split; [reflexivity|]. cbn [id customerId customerName duration
      session_audioBlob status session_audioUrl session_transcript].
    do 5 (split; [reflexivity|]). right.
    do 3 (split; [reflexivity|]). right. rewrite He, Hm.
    split; [exact Hne|]. split; [exact Hq|exact Hfr].
Qed.

End Upload.

(** ** Durations, groups and the expanded set *)

Section Display.

Lemma pretty_N_go_grows (x : N) (s : string) :
  (0 < x)%N -> String.length s < String.length (pretty_N_go x s).
Proof.
  revert s. induction (N.lt_wf_0 x) as [x _ IH]. intros s Hx.
  rewrite pretty_N_go_step by exact Hx.
  destruct (decide (0 < x `div` 10)%N) as [Hd|Hd].
  - specialize (IH (x `div` 10)%N (N.div_lt x 10 Hx eq_refl)
                   (String (pretty_N_char (x `mod` 10)) s) Hd).
    cbn [String.length] in IH. lia.
  - apply N.nlt_ge, N.le_0_r in Hd. rewrite Hd, pretty_N_go_0. cbn. lia.
Qed.

Lemma pretty_two_digits (n : nat) : 10 <= n -> 2 <= String.length (pretty n).
Proof.
  intros Hn. unfold pretty, pretty_nat, pretty, pretty_N.
  destruct (decide (N.of_nat n = 0%N)) as [H0|_]; [lia|].
  rewrite pretty_N_go_step by lia.
  assert (Hd : (0 < N.of_nat n `div` 10)%N).
  { apply N.div_str_pos. lia. }
  pose proof (pretty_N_go_grows _
                (String (pretty_N_char (N.of_nat n `mod` 10)) EmptyString) Hd) as H.
  cbn [String.length] in H. lia.
Qed.

Lemma below (f : nat -> bool) (k n : nat) :
  forallb f (seq 0 k) = true -> n < k -> f n = true.
Proof.
  intros H Hn. rewrite forallb_forall in H. apply H. apply in_seq. lia.
Qed.

Lemma pretty_one_digit (n : nat) : n < 10 -> String.length (pretty n) = 1.
Proof.
  intros Hn.
  apply Nat.eqb_eq.
  exact (below (fun n => String.length (pretty n) =? 1) 10 n eq_refl Hn).
Qed.

Lemma pretty_at_most_two (n : nat) : n < 100 -> String.length (pretty n) <= 2.
Proof.
  intros Hn.
  apply Nat.leb_le.
  exact (below (fun n => String.length (pretty n) <=? 2) 100 n eq_refl Hn).
Qed.

Lemma padStart_short (s : string) :
  String.length s = 1 -> padStart 2 "0" s = String "0" s.
Proof. intros H. unfold padStart. rewrite H. reflexivity. Qed.

Lemma padStart_long (s : string) :
  2 <= String.length s -> padStart 2 "0" s = s.
Proof.
  intros H. unfold padStart.
  replace (2 - String.length s) with 0 by lia. reflexivity.
Qed.

Lemma padStart_length (s : string) :
  String.length s <= 2 -> String.length (padStart 2 "0" s) = 2.
Proof.
  intros H. unfold padStart.
  destruct s as [|a [|b [|c s]]]; cbn in *; try reflexivity; lia.
Qed.

(** X20: the recorder's clock [formatTime] and the history's
    [formatDuration] print the same seconds field and differ only in the
    minutes: below ten minutes the clock has one more leading [0], from ten
    minutes on the two agree; below a hundred minutes the clock is five
    characters long. *)
Theorem formatTime_formatDuration (seconds : nat) :
  (seconds < 600 ->
   ChatInterface.formatTime seconds = String "0" (ChatHistory.formatDuration seconds))
  /\ (600 <= seconds ->
      ChatInterface.formatTime seconds = ChatHistory.formatDuration seconds)
  /\ (seconds < 100 * 60 -> String.length (ChatInterface.formatTime seconds) = 5).
Proof.
  unfold ChatInterface.formatTime, ChatHistory.formatDuration.
  split; [|split]; intros Hs.
  - rewrite padStart_short; [reflexivity|].
    apply pretty_one_digit. apply Nat.Div0.div_lt_upper_bound. lia.
  - rewrite padStart_long; [reflexivity|].
    apply pretty_two_digits. apply Nat.div_le_lower_bound; lia.
  - rewrite !string_length_app. cbn [String.length].
    rewrite !padStart_length; [reflexivity| |].
    + apply pretty_at_most_two.
      pose proof (Nat.mod_upper_bound seconds 60). lia.
    + apply pretty_at_most_two. apply Nat.Div0.div_lt_upper_bound. lia.
Qed.

Lemma groupedSessions_snoc (l : list ChatSession) (session : ChatSession) :
  ChatHistory.groupedSessions (l ++ [session]) =
  acc ← ChatHistory.groupedSessions l;
  if decide (customerName session ∈ objectPrototypeNames) then None
  else Some (<[customerName session :=
                 default [] (acc !! customerName session) ++ [session]]> acc).
Proof. unfold ChatHistory.groupedSessions. now rewrite foldl_app. Qed.

(** X21: when no customer name is an inherited property name,
    [groupedSessions] puts under each name exactly the sessions of that
    name, in the order of the list, and has no entry for a name without
    sessions; one session under an inherited name ([constructor],
    [toString], ...) makes the grouping throw. *)
Theorem groupedSessions_partition (l : list ChatSession) :
  (Forall (fun s => customerName s ∉ objectPrototypeNames) l ->
   exists groups,
     ChatHistory.groupedSessions l = Some groups
     /\ forall name,
          default [] (groups !! name) = filter (fun s => customerName s = name) l
          /\ (groups !! name = None <-> Forall (fun s => customerName s <> name) l))
  /\ (Exists (fun s => customerName s ∈ objectPrototypeNames) l ->
      ChatHistory.groupedSessions l = None).
Proof.
  induction l as [|session l [IHok IHthrow]] using rev_ind.
  - split.
    + intros _. exists ∅. split; [reflexivity|]. intros name.
      rewrite lookup_empty. split; [reflexivity|]. split; [constructor|reflexivity].
    + intros H. inversion H.
  - rewrite groupedSessions_snoc. split.
    + intros Hall. apply Forall_app in Hall as [Hl Hs].
      apply Forall_inv in Hs.
      destruct (IHok Hl) as (groups & -> & Hgroups). cbn.
      destruct (decide (customerName session ∈ objectPrototypeNames))
        as [Hin|_]; [exfalso; exact (Hs Hin)|].
      eexists. split; [reflexivity|]. intros name.
      destruct (Hgroups name) as [Hname Hnone].
      rewrite filter_app, Forall_app, Forall_singleton.
      destruct (decide (customerName session = name)) as [Heq|Hne].
      * rewrite filter_cons_True, filter_nil by exact Heq.
        rewrite Heq, lookup_insert_eq, Hname.
        split; [reflexivity|]. split; [discriminate|]. intros [_ H]. contradiction.
      * rewrite lookup_insert_ne by exact Hne.
        rewrite filter_cons_False, filter_nil, app_nil_r by exact Hne.
        split; [exact Hname|]. rewrite Hnone. tauto.
    + intros Hex. apply Exists_app in Hex as [Hex|Hex].
      * now rewrite (IHthrow Hex).
      * apply Exists_cons in Hex as [Hs|Hex]; [|inversion Hex].
        destruct (ChatHistory.groupedSessions l); [|reflexivity]. cbn.
        destruct (decide (customerName session ∈ objectPrototypeNames))
          as [_|Hout]; [reflexivity|exfalso; exact (Hout Hs)].
Qed.

(** X22: [toggleSession] on the same session twice gives back the expanded
    set it started from; one call flips that session's membership and no
    other's. *)
Theorem toggleSession_twice (sessionId : string) (expandedSessions : gset string) :
  ChatHistory.toggleSession sessionId
    (ChatHistory.toggleSession sessionId expandedSessions) = expandedSessions
  /\ (sessionId ∈ ChatHistory.toggleSession sessionId expandedSessions <->
      sessionId ∉ expandedSessions)
  /\ (forall other, other <> sessionId ->
        other ∈ ChatHistory.toggleSession sessionId expandedSessions <->
        other ∈ expandedSessions).
Proof.
  unfold ChatHistory.toggleSession.
  destruct (decide (sessionId ∈ expandedSessions)) as [Hin|Hout].
  - destruct (decide (sessionId ∈ expandedSessions ∖ {[sessionId]})) as [H|_].
    { apply elem_of_difference in H as [_ H]. exfalso. apply H.
      now apply elem_of_singleton. }
    split; [|split].
    + apply set_eq. intros x.
      rewrite elem_of_union, elem_of_difference, !elem_of_singleton.
      destruct (decide (x = sessionId)) as [->|Hne]; tauto.
    + rewrite elem_of_difference, elem_of_singleton. tauto.
    + intros other Hne. rewrite elem_of_difference, elem_of_singleton. tauto.
  - destruct (decide (sessionId ∈ expandedSessions ∪ {[sessionId]})) as [_|H].
    2:{ exfalso. apply H. apply elem_of_union. right. now apply elem_of_singleton. }
    split; [|split].
    + apply set_eq. intros x.
      rewrite elem_of_difference, elem_of_union, !elem_of_singleton.
      destruct (decide (x = sessionId)) as [->|Hne]; tauto.
    + rewrite elem_of_union, elem_of_singleton. tauto.
    + intros other Hne. rewrite elem_of_union, elem_of_singleton. tauto.
Qed.

End Display.

(** ** The customer form *)

Section Form.
Context (env : Env).

(** X23: [handleSubmit] hands the form on only when its three fields are
    filled in, and [handleAddCustomer] copies them unchanged: if every
    customer shown has a name, an email and a phone number, so has every
    customer after a submission; a form with an empty field adds nothing. *)
Theorem form_customers_complete (now : nat) (inserted : DbReply) (st : AppState)
  (formData : CustomerData) (w : World) :
  let complete c :=
    customer_name c <> EmptyString /\ customer_email c <> EmptyString
    /\ customer_phone c <> EmptyString in
  Forall complete (customers st) ->
  match CustomerList.handleSubmit formData with
  | Some customerData =>
      customerData = formData
      /\ Forall complete
           (customers (fst (AppHandlers.handleAddCustomer env now inserted st
                              customerData w)))
  | None =>
      data_name formData = EmptyString \/ data_email formData = EmptyString
      \/ data_phone formData = EmptyString
  end.
Proof.
  intros complete Hall. unfold CustomerList.handleSubmit.
  destruct (data_name formData) as [|c1 s1] eqn:Hn; [now left|].
  destruct (data_email formData) as [|c2 s2] eqn:He; [now right; left|].
  destruct (data_phone formData) as [|c3 s3] eqn:Hp; [now right; right|].
  split; [reflexivity|].
  unfold AppHandlers.handleAddCustomer. run.
  destruct inserted; cbn; apply Forall_app; (split; [exact Hall|]);
    apply Forall_singleton; unfold complete; cbn; rewrite Hn, He, Hp;
    repeat split; discriminate.
Qed.

End Form.

(** ** The additional properties on concrete inputs *)

(** Settles that a given string is none of [objectPrototypeNames]. *)
Ltac plain_key :=
  let H := fresh "H" in
  intros H; apply list_elem_of_In in H; cbn in H;
  repeat (destruct H as [H|H]; [discriminate H|]); exact H.

Ltac plain_keys := repeat constructor; plain_key.

Lemma cache_store_then_retrieve_witness :
  fst (storageUtils.getAudioBlob onlineEnv "s1"
         (saveAudioBlob_onloadend onlineEnv "s1" blob1 worldWithTwoBlobs)) = Some blob1
  /\ fst (storageUtils.getAudioBlob onlineEnv "customer_1_1001"
            (saveAudioBlob_onloadend onlineEnv "s1" blob1 worldWithTwoBlobs)) =
     fst (storageUtils.getAudioBlob onlineEnv "customer_1_1001" worldWithTwoBlobs).
Proof.
  assert (H1 : FileReader_readAsDataURL onlineEnv blob1 <> EmptyString)
    by (vm_compute; discriminate).
  assert (H0 : "s1"%string ∉ objectPrototypeNames) by plain_key.
  destruct (cache_store_then_retrieve onlineEnv "s1" blob1 worldWithTwoBlobs H0 H1 eq_refl)
    as (Hsame & Hother & _).
  split; [exact Hsame|]. apply Hother. discriminate.
Defined.

Lemma cache_delete_then_retrieve_witness :
  fst (storageUtils.getAudioBlob onlineEnv "customer_1_1001"
         (snd (storageUtils.deleteAudioBlob "customer_1_1001" worldWithTwoBlobs))) = None
  /\ fst (storageUtils.getAudioBlob onlineEnv "customer_1_1002"
            (snd (storageUtils.deleteAudioBlob "customer_1_1001" worldWithTwoBlobs))) =
     fst (storageUtils.getAudioBlob onlineEnv "customer_1_1002" worldWithTwoBlobs).
Proof.
  assert (H0 : "customer_1_1001"%string ∉ objectPrototypeNames) by plain_key.
  destruct (cache_delete_then_retrieve onlineEnv "customer_1_1001" worldWithTwoBlobs H0)
    as (Hsame & Hother & _).
  split; [exact Hsame|]. apply Hother. discriminate.
Defined.

Lemma cache_last_load_wins_witness :
  storageUtils.getAudioBlobs
    (saveAudioBlob_onloadend onlineEnv "s2" blob1
       (saveAudioBlob_onloadend onlineEnv "s1" blob1 freshWorld)) =
  storageUtils.getAudioBlobs
    (saveAudioBlob_onloadend onlineEnv "s1" blob1
       (saveAudioBlob_onloadend onlineEnv "s2" blob1 freshWorld)).
Proof.
  apply (cache_last_load_wins onlineEnv "s1" "s2" blob1 blob1 freshWorld);
    [plain_key|plain_key|discriminate].
Defined.

Lemma uploadAudio_same_object_witness :
  let '(r, w') := UploadService.uploadAudio flakyEnv "s1" blob1 true freshWorld in
  uploadsIn (since freshWorld w') =
    replicate 4 ("recordings/s1/recording.webm"%string, blob1)
  /\ UploadService.filePathOf "s1" <> UploadService.filePathOf "s2".
Proof.
  generalize (uploadAudio_same_object flakyEnv "s1" blob1 true freshWorld).
  vm_compute. intros [Hsent Hinj]. split; [exact Hsent|].
  intros Heq. specialize (Hinj "s2"%string (eq_sym Heq)). discriminate Hinj.
Defined.

Lemma uploadAudio_transcriber_requests_witness :
  let '(r, w') := UploadService.uploadAudio flakyEnv "s1" blob1 true freshWorld in
  success r = false /\ transcriptionsIn (since freshWorld w') = [].
Proof.
  generalize (uploadAudio_transcriber_requests flakyEnv "s1" blob1 true freshWorld).
  vm_compute. intros (_ & Hfail & _). split; [reflexivity|]. apply Hfail. reflexivity.
Defined.


Lemma uploadAudio_failure_is_queued_or_config_witness :
  let '(r, w') := UploadService.uploadAudio misconfiguredEnv "s1" blob1 true freshWorld in
  success r = false /\ transcript r = None /\ audioUrl r = None.
Proof.
  generalize (uploadAudio_failure_is_queued_or_config misconfiguredEnv "s1" blob1 true
                freshWorld).
  vm_compute. intros [_ H]. destruct (H eq_refl) as (Ht & Hu & _).
  split; [reflexivity|]. split; [exact Ht|exact Hu].
Defined.

Lemma retryPendingUploads_offline_requeues_witness :
  queuedIds (snd (UploadService.retryPendingUploads offlineEnv true worldWithTwoBlobs)) =
  queuedIds worldWithTwoBlobs ++
  filter (cached offlineEnv worldWithTwoBlobs) (queuedIds worldWithTwoBlobs).
Proof.
  apply (retryPendingUploads_offline_requeues offlineEnv true worldWithTwoBlobs).
  - plain_keys.
  - intros n _. discriminate.
Defined.

Lemma retryPendingUploads_keeps_uncached_witness :
  queuedIds
    (snd (UploadService.retryPendingUploads onlineEnv true
            (snd (storageUtils.deleteAudioBlob "customer_1_1001" worldWithTwoBlobs)))) =
  filter (fun i => ~ cached onlineEnv
                      (snd (storageUtils.deleteAudioBlob "customer_1_1001" worldWithTwoBlobs)) i)
         (queuedIds (snd (storageUtils.deleteAudioBlob "customer_1_1001" worldWithTwoBlobs))).
Proof.
  apply (retryPendingUploads_keeps_uncached onlineEnv true
           (snd (storageUtils.deleteAudioBlob "customer_1_1001" worldWithTwoBlobs)));
    [plain_keys | intros n _; reflexivity ..].
Defined.

Lemma retryPendingUploads_without_blobs_witness :
  let w := snd (storageUtils.deleteAudioBlob "customer_1_1002"
                  (snd (storageUtils.deleteAudioBlob "customer_1_1001" worldWithTwoBlobs))) in
  queuedIds w = ["customer_1_1001"; "customer_1_1002"]%string
  /\ calls (snd (UploadService.retryPendingUploads onlineEnv true w)) = calls w.
Proof.
  intros w. split; [reflexivity|].
  apply (retryPendingUploads_without_blobs onlineEnv true w); [plain_keys|].
  intros i Hi. apply list_elem_of_In in Hi. simpl in Hi.
  destruct Hi as [<-|[<-|[]]]; intros [b Hb]; vm_compute in Hb; discriminate Hb.
Defined.

Lemma recorder_flags_consistent_witness :
  let r := AudioRecorder.run
             [AudioRecorder.OpInitialize AudioRecorder.StreamGranted;
              AudioRecorder.OpStart; AudioRecorder.OpPause] AudioRecorder.create in
  AudioRecorder.isPausedState r = true /\ AudioRecorder.isRecording r = false
  /\ AudioRecorder.stream r = true.
Proof.
  intros r.
  destruct (recorder_flags_consistent
              [AudioRecorder.OpInitialize AudioRecorder.StreamGranted;
               AudioRecorder.OpStart; AudioRecorder.OpPause])
    as (_ & Hpaused & _ & Hstream).
  split; [apply Hpaused; reflexivity|]. split; [reflexivity|].
  apply Hstream. discriminate.
Defined.

Lemma recorder_take_in_order_witness :
  let r := snd (AudioRecorder.initialize AudioRecorder.StreamGranted AudioRecorder.create) in
  fst (AudioRecorder.stop blob1
         (AudioRecorder.run
            [AudioRecorder.OpData blob1; AudioRecorder.OpPause; AudioRecorder.OpResume;
             AudioRecorder.OpData blob1] (AudioRecorder.start r))) =
  AudioRecorder.Resolved
    {| blob_bytes := [Byte.x52; Byte.x49; Byte.x52; Byte.x49; Byte.x52; Byte.x49];
       blob_type := "audio/webm" |}.
Proof.
  intros r.
  exact (recorder_take_in_order r
           [AudioRecorder.OpData blob1; AudioRecorder.OpPause; AudioRecorder.OpResume;
            AudioRecorder.OpData blob1] blob1 eq_refl eq_refl).
Defined.

Lemma recorder_stop_keeps_pause_flag_witness :
  let r := AudioRecorder.start
             (snd (AudioRecorder.initialize AudioRecorder.StreamGranted
                     AudioRecorder.create)) in
  AudioRecorder.getState (snd (AudioRecorder.stop blob1 (AudioRecorder.pause r))) =
    "inactive"%string
  /\ AudioRecorder.isPausedState
       (snd (AudioRecorder.stop blob1 (AudioRecorder.pause r))) = true.
Proof.
  intros r.
  destruct (recorder_stop_keeps_pause_flag r blob1 eq_refl) as (Hstate & Hflag & _).
  split; [exact Hstate|exact Hflag].
Defined.

Lemma recorder_uninitialized_witness :
  AudioRecorder.start AudioRecorder.create = AudioRecorder.create
  /\ AudioRecorder.stop blob1 AudioRecorder.create =
     (AudioRecorder.Rejected "Recorder not initialized", AudioRecorder.create).
Proof.
  destruct (recorder_uninitialized AudioRecorder.create blob1 eq_refl)
    as (Hstart & _ & _ & _ & _ & Hstop & _).
  split; [exact Hstart|exact Hstop].
Defined.


Lemma handleAddCustomer_cached_only_on_failure_witness :
  let data := {| data_name := "Bela"; data_email := "bela@example.org";
                 data_phone := "555-0101" |} in
  localStorage (snd (AppHandlers.handleAddCustomer onlineEnv 1700 DbOk
                       appWithTwoSessions data worldWithTwoBlobs)) =
    localStorage worldWithTwoBlobs
  /\ length (storageUtils.getCustomers
               (snd (AppHandlers.handleAddCustomer onlineEnv 1700
                       (DbError "Failed to fetch") appWithTwoSessions data
                       worldWithTwoBlobs))) = 2.
Proof.
  intros data. split.
  - generalize (handleAddCustomer_cached_only_on_failure onlineEnv 1700 DbOk
                  appWithTwoSessions data worldWithTwoBlobs).
    destruct (AppHandlers.handleAddCustomer onlineEnv 1700 DbOk appWithTwoSessions
                data worldWithTwoBlobs) as [st' w'].
    intros (_ & _ & Hok & _). exact (proj1 (Hok eq_refl)).
  - generalize (handleAddCustomer_cached_only_on_failure onlineEnv 1700
                  (DbError "Failed to fetch") appWithTwoSessions data worldWithTwoBlobs).
    destruct (AppHandlers.handleAddCustomer onlineEnv 1700 (DbError "Failed to fetch")
                appWithTwoSessions data worldWithTwoBlobs) as [st' w'].
    intros (_ & _ & _ & Hfail).
    destruct (Hfail ltac:(discriminate)) as [Hc _]. cbn [snd]. rewrite Hc. reflexivity.
Defined.

Lemma handleDeleteCustomer_optimistic_witness :
  let '(st', w') :=
    App.handleDeleteCustomer offlineEnv appWithTwoSessions "customer_1" worldWithTwoBlobs in
  customers st' = [] /\ sessions st' = []
  /\ storageUtils.getCustomers w' = [].
Proof.
  generalize (handleDeleteCustomer_optimistic offlineEnv appWithTwoSessions "customer_1"
                worldWithTwoBlobs).
  destruct (App.handleDeleteCustomer offlineEnv appWithTwoSessions "customer_1"
              worldWithTwoBlobs) as [st' w'].
  intros [_ Hyes]. destruct (Hyes eq_refl) as (Hc & Hs & _ & _ & Hfail).
  split; [exact Hc|]. split; [exact Hs|].
  apply Hfail. left. discriminate.
Defined.

Lemma handleUpload_session_witness :
  let '(out, w') :=
    ChatInterface.handleUpload misconfiguredEnv 1003 customer1 (Some blob1)
      "blob:recording" 9 freshWorld in
  exists session message,
    out = Some (session, message)
    /\ id session = "customer_1_1003"%string
    /\ status session = pending
    /\ queuedIds w' = [].
Proof.
  generalize (handleUpload_session misconfiguredEnv 1003 customer1 blob1
                "blob:recording" 9 freshWorld).
  vm_compute.
  intros (session & message & Hout & _ & _ & _ & _ & _ & Hcase).
  apply (inj Some) in Hout. apply pair_equal_spec in Hout as [<- <-].
  eexists _, _. split; [reflexivity|]. split; [reflexivity|]. split; [reflexivity|].
  destruct Hcase as [(Hu & _)|(_ & _ & _ & [(_ & Hq & _)|(Hne & _)])].
  - discriminate Hu.
  - exact Hq.
  - exfalso. apply Hne. reflexivity.
Defined.

Lemma formatTime_formatDuration_witness :
  ChatInterface.formatTime 75 = String "0" (ChatHistory.formatDuration 75)
  /\ ChatInterface.formatTime 754 = ChatHistory.formatDuration 754
  /\ String.length (ChatInterface.formatTime 75) = 5.
Proof.
  destruct (formatTime_formatDuration 75) as (Hshort & _ & Hlen).
  destruct (formatTime_formatDuration 754) as (_ & Hlong & _).
  split; [apply Hshort; lia|]. split; [apply Hlong; lia|apply Hlen; lia].
Defined.

Lemma groupedSessions_partition_witness :
  exists groups,
    ChatHistory.groupedSessions [session1001; session1002] = Some groups
    /\ default [] (groups !! "Asha"%string) = [session1001; session1002].
Proof.
  destruct (groupedSessions_partition [session1001; session1002]) as [Hok _].
  destruct Hok as (groups & Hg & Hnames).
  - plain_keys.
  - exists groups. split; [exact Hg|].
    destruct (Hnames "Asha"%string) as [Hasha _]. exact Hasha.
Defined.

Lemma toggleSession_twice_witness :
  ChatHistory.toggleSession "s1" (ChatHistory.toggleSession "s1" {["s2"%string]}) =
    {["s2"%string]}
  /\ ("s2"%string ∈ ChatHistory.toggleSession "s1" {["s2"%string]} <->
      "s2"%string ∈ ({["s2"%string]} : gset string)).
Proof.
  destruct (toggleSession_twice "s1" {["s2"%string]}) as (Htwice & _ & Hother).
  split; [exact Htwice|]. apply Hother. discriminate.
Defined.

Lemma form_customers_complete_witness :
  let formData := {| data_name := "Bela"; data_email := "bela@example.org";
                     data_phone := "555-0101" |} in
  CustomerList.handleSubmit formData = Some formData
  /\ Forall (fun c => customer_phone c <> EmptyString)
            (customers (fst (AppHandlers.handleAddCustomer onlineEnv 1700 DbOk
                               appWithTwoSessions formData freshWorld))).
Proof.
  intros formData.
  assert (Hall : Forall (fun c => customer_name c <> EmptyString
                                  /\ customer_email c <> EmptyString
                                  /\ customer_phone c <> EmptyString)
                        (customers appWithTwoSessions))
    by (repeat constructor; discriminate).
  pose proof (form_customers_complete onlineEnv 1700 DbOk appWithTwoSessions formData
                freshWorld Hall) as H.
  change (CustomerList.handleSubmit formData) with (Some formData) in H.
  cbn beta iota in H. destruct H as [_ H].
  split; [reflexivity|].
  apply (Forall_impl _ _ _ H). intros c (_ & _ & Hphone). exact Hphone.
Defined.

(** ** Sessions read back, and the two copies of the delete handler *)

Section Reload.
Context (env : Env).

Lemma json_session_idempotent (s : ChatSession) :
  json_session (json_session s) = json_session s.
Proof. destruct s as [? ? ? ? [blob|] ? ? ? ?]; reflexivity. Qed.

(** X24: a session list read back from [localStorage] never carries a
    recording, whatever was saved: after [handleSessionComplete], a load that
    falls back to [localStorage] shows every session with its [audioBlob]
    unset or an empty object, and otherwise as it was handed over; saving
    what was read back writes the same list again. *)
Theorem reloaded_sessions_carry_no_blob (inserted : DbReply) (st : AppState)
  (session : ChatSession) (dbSessions : option (list ChatSession)) (w : World) :
  let w' := snd (AppHandlers.handleSessionComplete inserted st session w) in
  let reloaded := sessions (fst (AppHandlers.loadInitialData None dbSessions w')) in
  Forall (fun s => forall blob, session_audioBlob s <> Some (LiveBlob blob)) reloaded
  /\ id <$> reloaded = id <$> (sessions st ++ [session])
  /\ status <$> reloaded = status <$> (sessions st ++ [session])
  /\ session_audioUrl <$> reloaded = session_audioUrl <$> (sessions st ++ [session])
  /\ storageUtils.getSessions (storageUtils.saveSessions reloaded w') = reloaded.
Proof.
  intros w' reloaded.
  assert (Hr : reloaded = json_session <$> (sessions st ++ [session])).
  { unfold reloaded, w', AppHandlers.handleSessionComplete, AppHandlers.loadInitialData.
    run. destruct inserted; destruct (session_audioBlob session) as [[blob|]|];
      reflexivity. }
  rewrite Hr. clear Hr. split; [|split; [|split; [|split]]].
  - apply Forall_fmap, Forall_forall. intros s _ blob. cbn.
    destruct (session_audioBlob s); cbn; discriminate.
  - rewrite <- list_fmap_compose. reflexivity.
  - rewrite <- list_fmap_compose. reflexivity.
  - rewrite <- list_fmap_compose. reflexivity.
  - unfold storageUtils.getSessions, storageUtils.saveSessions. cbn.
    rewrite <- list_fmap_compose. apply list_fmap_ext. intros i s _.
    apply json_session_idempotent.
Qed.

(** X25: the two copies of [handleDeleteCustomer] end with the same
    component state and the same [localStorage]; they differ in what they
    ask of the record store. When the first delete fails the second is never
    asked: the copy that starts with the sessions then leaves the customer
    row alone, the copy that starts with the customer leaves the sessions'
    rows alone. *)
Theorem handleDeleteCustomer_copies_agree (st : AppState) (cid : string) (w : World) :
  let '(st1, w1) := App.handleDeleteCustomer env st cid w in
  let '(st2, w2) := AppLocalAuth.handleDeleteCustomer env st cid w in
  st1 = st2
  /\ localStorage w1 = localStorage w2
  /\ (window_confirm env (n_confirm (calls w)) = true ->
      sessions_delete_eq env (n_deleteSessions (calls w)) <> DbOk ->
      since w w1 = [EvConfirm; EvDeleteSessionsByCustomer cid])
  /\ (window_confirm env (n_confirm (calls w)) = true ->
      customers_delete_eq env (n_deleteCustomer (calls w)) <> DbOk ->
      since w w2 = [EvConfirm; EvDeleteCustomer cid])
  /\ (window_confirm env (n_confirm (calls w)) = true ->
      sessions_delete_eq env (n_deleteSessions (calls w)) = DbOk ->
      customers_delete_eq env (n_deleteCustomer (calls w)) = DbOk ->
      since w w1 = [EvConfirm; EvDeleteSessionsByCustomer cid; EvDeleteCustomer cid]
      /\ since w w2 = [EvConfirm; EvDeleteCustomer cid; EvDeleteSessionsByCustomer cid]).
Proof.
  pose proof (handleDeleteCustomer_order env st cid w) as Ho1.
  pose proof (handleDeleteCustomer_local_auth_order env st cid w) as Ho2.
  cbv zeta in Ho1, Ho2. revert Ho1 Ho2.
  unfold App.handleDeleteCustomer, AppLocalAuth.handleDeleteCustomer, confirm,
    db.deleteSessionsByCustomer, db.deleteCustomer. run.
  destruct (window_confirm env (n_confirm (calls w))).
  - simpl.
    destruct (sessions_delete_eq env (n_deleteSessions (calls w))) eqn:Es;
      destruct (customers_delete_eq env (n_deleteCustomer (calls w))) eqn:Ec; simpl;
      rewrite ?Es, ?Ec; simpl;
      (rewrite !forEach_skips;
       [ | intros s Hs ?; apply remaining_sessions in Hs;
           destruct (decide (customerId s = cid)); [contradiction|reflexivity] .. ]);
      cbn; intros Ho1 Ho2; specialize (Ho1 eq_refl); specialize (Ho2 eq_refl);
      (split; [reflexivity|]); (split; [reflexivity|]);
      (split; [intros _ H; try congruence; exact Ho1|]);
      (split; [intros _ H; try congruence; exact Ho2|]);
      intros _ H1 H2; try discriminate; split; assumption.
  - cbn. intros _ _. repeat split; discriminate.
Qed.

End Reload.

Lemma handleDeleteCustomer_copies_agree_witness :
  let '(st1, w1) :=
    App.handleDeleteCustomer onlineEnv appWithTwoSessions "customer_1" worldWithTwoBlobs in
  let '(st2, w2) :=
    AppLocalAuth.handleDeleteCustomer onlineEnv appWithTwoSessions "customer_1"
      worldWithTwoBlobs in
  st1 = st2
  /\ since worldWithTwoBlobs w1 =
       [EvConfirm; EvDeleteSessionsByCustomer "customer_1"; EvDeleteCustomer "customer_1"]
  /\ since worldWithTwoBlobs w2 =
       [EvConfirm; EvDeleteCustomer "customer_1"; EvDeleteSessionsByCustomer "customer_1"].
Proof.
  generalize (handleDeleteCustomer_copies_agree onlineEnv appWithTwoSessions "customer_1"
                worldWithTwoBlobs).
  destruct (App.handleDeleteCustomer onlineEnv appWithTwoSessions "customer_1"
              worldWithTwoBlobs) as [st1 w1].
  destruct (AppLocalAuth.handleDeleteCustomer onlineEnv appWithTwoSessions "customer_1"
              worldWithTwoBlobs) as [st2 w2].
  intros (Hst & _ & _ & _ & Hboth).
  destruct (Hboth eq_refl eq_refl eq_refl) as [H1 H2].
  split; [exact Hst|]. split; [exact H1|exact H2].
Defined.
